(** * Homare: task registry, verifier gateway and payout splitter

    A shallow embedding of the three Solidity contracts of the repository
    (TaskRegistry, PayoutSplitter, VerifierGateway) and the properties of
    the settlement / verification protocol proved about them.

    Conventions of the embedding:
    - [uint256] and [address] values are binary naturals; Solidity 0.8
      checked arithmetic is written out ([checked_add], [checked_mul]
      revert with [Panic 0x11] above 2^256 - 1);
    - a [mapping] is a finite map read with the zero value as default;
    - an external function is a Rocq function from the contract state and
      the call environment ([msg.sender], [block.timestamp]) to a
      [result]: either [Ok] with the new state or [Revert] with the error;
      a reverted call leaves the state as it was (see [exec]);
    - [emit] conses the event onto the contract's log (most recent first). *)

From Stdlib Require Import QArith.Qcanon.
From stdpp Require Import base decidable option numbers list strings countable gmap fin_maps.

Local Open Scope string_scope.
Local Open Scope list_scope.
Local Open Scope N_scope.

(** ** EVM values and checked arithmetic *)

Abbreviation address := N (only parsing).

Definition uint256_max : N := Eval vm_compute in (2 ^ 256 - 1).

Inductive error :=
| Error (reason : string)                 (* require(cond, "reason") *)
| Panic (code : N)                        (* 0x11: arithmetic overflow *)
| OwnableUnauthorizedAccount (account : address)
| OwnableInvalidOwner (account : address)
| ERC20InsufficientBalance (sender : address) (balance needed : N).

Inductive result (A : Type) :=
| Ok (a : A)
| Revert (e : error).
Arguments Ok {A} a.
Arguments Revert {A} e.

#[global] Instance result_ret : MRet result := fun _ a => Ok a.
#[global] Instance result_bind : MBind result := fun _ _ f m =>
  match m with
  | Ok a => f a
  | Revert e => Revert e
  end.

Definition is_ok {A} (r : result A) : bool :=
  match r with Ok _ => true | Revert _ => false end.

Definition require (cond : bool) (reason : string) : result unit :=
  if cond then Ok tt else Revert (Error reason).

Definition checked_add (a b : N) : result N :=
  if bool_decide (a + b <= uint256_max) then Ok (a + b) else Revert (Panic 17).

Definition checked_mul (a b : N) : result N :=
  if bool_decide (a * b <= uint256_max) then Ok (a * b) else Revert (Panic 17).

(** The call environment of a transaction. *)
Record Env := mkEnv {
  msg_sender : address;
  block_timestamp : N
}.

(** ** TaskRegistry.sol *)

Module TaskRegistry.

Inductive TaskCategory := SWAP | BRIDGE | SOCIAL | DEFI | NFT | CUSTOM.

Inductive TaskStatus := ACTIVE | PAUSED | COMPLETED | CANCELLED.

#[global] Instance TaskStatus_eq_dec : EqDecision TaskStatus.
Proof. solve_decision. Defined.

Record Task := mkTask {
  id : N;
  advertiser : address;
  name : string;
  description : string;
  category : TaskCategory;
  status : TaskStatus;
  rewardAmount : N;
  rewardToken : address;
  maxParticipants : N;
  currentParticipants : N;
  startTime : N;
  endTime : N;
  verificationCriteria : string;
  requiresKYC : bool;
  sybilThreshold : N
}.

Record TaskCompletion := mkTaskCompletion {
  user : address;
  taskId : N;
  completed : bool;
  verified : bool;
  completionTime : N;
  proofData : string;
  sybilScore : N
}.

Inductive Event :=
| TaskCreated (taskId : N) (advertiser : address) (name : string)
| TaskCompleted (taskId : N) (user : address) (rewardAmount : N)
| TaskVerified (taskId : N) (user : address) (verified : bool)
| TaskStatusUpdated (taskId : N) (newStatus : TaskStatus)
| OwnershipTransferred (previousOwner newOwner : address).

Record State := mkState {
  nextTaskId : N;
  tasks : gmap N Task;
  taskCompletions : gmap (N * address) TaskCompletion;
  userCompletedTasks : gmap address (list N);
  userTotalEarnings : gmap address N;
  verificationOracle : address;
  payoutSplitter : address;
  supportedTokens : gmap address bool;
  owner : address;
  events : list Event
}.

(** Zero values of the two structs: what a mapping yields at a key that
    was never written.  The first member of each enum is its zero. *)
Definition zeroTask : Task :=
  mkTask 0 0 "" "" SWAP ACTIVE 0 0 0 0 0 0 "" false 0.

Definition zeroCompletion : TaskCompletion :=
  mkTaskCompletion 0 0 false false 0 "" 0.

(** [tasks[_taskId]], as the view [getTask] returns it. *)
Definition getTask (st : State) (_taskId : N) : Task :=
  default zeroTask (tasks st !! _taskId).

(** [taskCompletions[_taskId][_user]]. *)
Definition getCompletion (st : State) (_taskId : N) (_user : address) : TaskCompletion :=
  default zeroCompletion (taskCompletions st !! (_taskId, _user)).

Definition getUserCompletedTasks (st : State) (_user : address) : list N :=
  default [] (userCompletedTasks st !! _user).

Definition getUserTotalEarnings (st : State) (_user : address) : N :=
  default 0 (userTotalEarnings st !! _user).

Definition isSupportedToken (st : State) (_token : address) : bool :=
  default false (supportedTokens st !! _token).

(** Field updates of storage structs. *)
Definition set_status (t : Task) (s : TaskStatus) : Task :=
  mkTask (id t) (advertiser t) (name t) (description t) (category t) s
         (rewardAmount t) (rewardToken t) (maxParticipants t)
         (currentParticipants t) (startTime t) (endTime t)
         (verificationCriteria t) (requiresKYC t) (sybilThreshold t).

Definition set_currentParticipants (t : Task) (n : N) : Task :=
  mkTask (id t) (advertiser t) (name t) (description t) (category t) (status t)
         (rewardAmount t) (rewardToken t) (maxParticipants t)
         n (startTime t) (endTime t)
         (verificationCriteria t) (requiresKYC t) (sybilThreshold t).

Definition set_verdict (c : TaskCompletion) (v : bool) (score : N) : TaskCompletion :=
  mkTaskCompletion (user c) (taskId c) (completed c) v
                   (completionTime c) (proofData c) score.

Definition with_tasks (st : State) (m : gmap N Task) : State :=
  mkState (nextTaskId st) m (taskCompletions st) (userCompletedTasks st)
          (userTotalEarnings st) (verificationOracle st) (payoutSplitter st)
          (supportedTokens st) (owner st) (events st).

Definition with_nextTaskId (st : State) (n : N) : State :=
  mkState n (tasks st) (taskCompletions st) (userCompletedTasks st)
          (userTotalEarnings st) (verificationOracle st) (payoutSplitter st)
          (supportedTokens st) (owner st) (events st).

Definition with_taskCompletions (st : State) (m : gmap (N * address) TaskCompletion) : State :=
  mkState (nextTaskId st) (tasks st) m (userCompletedTasks st)
          (userTotalEarnings st) (verificationOracle st) (payoutSplitter st)
          (supportedTokens st) (owner st) (events st).

Definition with_userCompletedTasks (st : State) (m : gmap address (list N)) : State :=
  mkState (nextTaskId st) (tasks st) (taskCompletions st) m
          (userTotalEarnings st) (verificationOracle st) (payoutSplitter st)
          (supportedTokens st) (owner st) (events st).

Definition with_userTotalEarnings (st : State) (m : gmap address N) : State :=
  mkState (nextTaskId st) (tasks st) (taskCompletions st) (userCompletedTasks st)
          m (verificationOracle st) (payoutSplitter st)
          (supportedTokens st) (owner st) (events st).

Definition with_verificationOracle (st : State) (a : address) : State :=
  mkState (nextTaskId st) (tasks st) (taskCompletions st) (userCompletedTasks st)
          (userTotalEarnings st) a (payoutSplitter st)
          (supportedTokens st) (owner st) (events st).

Definition with_payoutSplitter (st : State) (a : address) : State :=
  mkState (nextTaskId st) (tasks st) (taskCompletions st) (userCompletedTasks st)
          (userTotalEarnings st) (verificationOracle st) a
          (supportedTokens st) (owner st) (events st).

Definition with_supportedTokens (st : State) (m : gmap address bool) : State :=
  mkState (nextTaskId st) (tasks st) (taskCompletions st) (userCompletedTasks st)
          (userTotalEarnings st) (verificationOracle st) (payoutSplitter st)
          m (owner st) (events st).

Definition with_owner (st : State) (a : address) : State :=
  mkState (nextTaskId st) (tasks st) (taskCompletions st) (userCompletedTasks st)
          (userTotalEarnings st) (verificationOracle st) (payoutSplitter st)
          (supportedTokens st) a (events st).

Definition emit (st : State) (e : Event) : State :=
  mkState (nextTaskId st) (tasks st) (taskCompletions st) (userCompletedTasks st)
          (userTotalEarnings st) (verificationOracle st) (payoutSplitter st)
          (supportedTokens st) (owner st) (e :: events st).

(** OpenZeppelin [Ownable]: the [onlyOwner] modifier. *)
Definition onlyOwner (st : State) (env : Env) : result unit :=
  if bool_decide (owner st = msg_sender env) then Ok tt
  else Revert (OwnableUnauthorizedAccount (msg_sender env)).

(** [constructor(_verificationOracle, _payoutSplitter) Ownable(msg.sender)] *)
Definition constructor (env : Env) (_verificationOracle _payoutSplitter : address)
  : result State :=
  if bool_decide (msg_sender env = 0) then Revert (OwnableInvalidOwner 0)
  else Ok (mkState 1 ∅ ∅ ∅ ∅ _verificationOracle _payoutSplitter ∅
                   (msg_sender env) [OwnershipTransferred 0 (msg_sender env)]).

Definition createTask (st : State) (env : Env)
    (_name _description : string) (_category : TaskCategory)
    (_rewardAmount : N) (_rewardToken : address)
    (_maxParticipants _duration : N) (_verificationCriteria : string)
    (_requiresKYC : bool) (_sybilThreshold : N) : result (State * N) :=
  onlyOwner st env ;;
  require (bool_decide (0 < _rewardAmount)) "Reward amount must be greater than 0" ;;
  require (bool_decide (_rewardToken ≠ 0)) "Invalid reward token address" ;;
  require (isSupportedToken st _rewardToken) "Reward token not supported" ;;
  require (bool_decide (0 < _maxParticipants)) "Max participants must be greater than 0" ;;
  require (bool_decide (0 < _duration)) "Duration must be greater than 0" ;;
  let taskId := nextTaskId st in
  next ← checked_add (nextTaskId st) 1 ;
  let st := with_nextTaskId st next in
  let startTime := block_timestamp env in
  endTime ← checked_add startTime _duration ;
  let st := with_tasks st (<[taskId :=
      mkTask taskId (msg_sender env) _name _description _category ACTIVE
             _rewardAmount _rewardToken _maxParticipants 0 startTime endTime
             _verificationCriteria _requiresKYC _sybilThreshold]> (tasks st)) in
  Ok (emit st (TaskCreated taskId (msg_sender env) _name), taskId).

(** [_triggerVerification]: only announces the completion to the oracle. *)
Definition _triggerVerification (st : State) (_taskId : N) (_user : address) : State :=
  emit st (TaskCompleted _taskId _user (rewardAmount (getTask st _taskId))).

(** [completeTask] is [nonReentrant]; the body makes no external call, so
    the guard is free on entry and released on exit and is left implicit. *)
Definition completeTask (st : State) (env : Env) (_taskId : N) (_proofData : string)
  : result State :=
  let task := getTask st _taskId in
  require (bool_decide (status task = ACTIVE)) "Task is not active" ;;
  require (bool_decide (startTime task <= block_timestamp env)
           && bool_decide (block_timestamp env <= endTime task))
          "Task not in valid time range" ;;
  require (bool_decide (currentParticipants task < maxParticipants task)) "Task is full" ;;
  require (negb (completed (getCompletion st _taskId (msg_sender env))))
          "Task already completed by user" ;;
  let st := with_taskCompletions st (<[(_taskId, msg_sender env) :=
      mkTaskCompletion (msg_sender env) _taskId true false (block_timestamp env)
                       _proofData 0]> (taskCompletions st)) in
  participants ← checked_add (currentParticipants (getTask st _taskId)) 1 ;
  let st := with_tasks st (<[_taskId :=
      set_currentParticipants (getTask st _taskId) participants]> (tasks st)) in
  let st := with_userCompletedTasks st (<[msg_sender env :=
      getUserCompletedTasks st (msg_sender env) ++ [_taskId]]> (userCompletedTasks st)) in
  Ok (_triggerVerification st _taskId (msg_sender env)).

(** [_triggerPayout]: credits the task's reward to the user's earnings. *)
Definition _triggerPayout (st : State) (_taskId : N) (_user : address) : result State :=
  total ← checked_add (getUserTotalEarnings st _user) (rewardAmount (getTask st _taskId)) ;
  Ok (with_userTotalEarnings st (<[_user := total]> (userTotalEarnings st))).

Definition verifyTaskCompletion (st : State) (env : Env)
    (_taskId : N) (_user : address) (_verified : bool) (_sybilScore : N)
  : result State :=
  require (bool_decide (msg_sender env = verificationOracle st))
          "Only verification oracle can verify" ;;
  require (completed (getCompletion st _taskId _user)) "Task not completed by user" ;;
  let st := with_taskCompletions st (<[(_taskId, _user) :=
      set_verdict (getCompletion st _taskId _user) _verified _sybilScore]>
      (taskCompletions st)) in
  st ← (if _verified && bool_decide (sybilThreshold (getTask st _taskId) <= _sybilScore)
        then _triggerPayout st _taskId _user
        else Ok st) ;
  Ok (emit st (TaskVerified _taskId _user _verified)).

Definition updateTaskStatus (st : State) (env : Env) (_taskId : N) (_newStatus : TaskStatus)
  : result State :=
  onlyOwner st env ;;
  require (bool_decide (_taskId < nextTaskId st)) "Task does not exist" ;;
  let st := with_tasks st (<[_taskId := set_status (getTask st _taskId) _newStatus]>
                             (tasks st)) in
  Ok (emit st (TaskStatusUpdated _taskId _newStatus)).

Definition setVerificationOracle (st : State) (env : Env) (_oracle : address) : result State :=
  onlyOwner st env ;;
  require (bool_decide (_oracle ≠ 0)) "Invalid oracle address" ;;
  Ok (with_verificationOracle st _oracle).

Definition setPayoutSplitter (st : State) (env : Env) (_splitter : address) : result State :=
  onlyOwner st env ;;
  require (bool_decide (_splitter ≠ 0)) "Invalid splitter address" ;;
  Ok (with_payoutSplitter st _splitter).

Definition addSupportedToken (st : State) (env : Env) (_token : address) : result State :=
  onlyOwner st env ;;
  Ok (with_supportedTokens st (<[_token := true]> (supportedTokens st))).

(** The two state-changing functions inherited from [Ownable]. *)
Definition transferOwnership (st : State) (env : Env) (newOwner : address) : result State :=
  onlyOwner st env ;;
  if bool_decide (newOwner = 0) then Revert (OwnableInvalidOwner 0)
  else Ok (emit (with_owner st newOwner) (OwnershipTransferred (owner st) newOwner)).

Definition renounceOwnership (st : State) (env : Env) : result State :=
  onlyOwner st env ;;
  Ok (emit (with_owner st 0) (OwnershipTransferred (owner st) 0)).

(** The external, state-changing interface of the contract as one
    transition function. *)
Inductive Call :=
| CreateTask (_name _description : string) (_category : TaskCategory)
             (_rewardAmount : N) (_rewardToken : address)
             (_maxParticipants _duration : N) (_verificationCriteria : string)
             (_requiresKYC : bool) (_sybilThreshold : N)
| CompleteTask (_taskId : N) (_proofData : string)
| VerifyTaskCompletion (_taskId : N) (_user : address) (_verified : bool) (_sybilScore : N)
| UpdateTaskStatus (_taskId : N) (_newStatus : TaskStatus)
| SetVerificationOracle (_oracle : address)
| SetPayoutSplitter (_splitter : address)
| AddSupportedToken (_token : address)
| TransferOwnership (newOwner : address)
| RenounceOwnership.

Definition call (st : State) (env : Env) (c : Call) : result State :=
  match c with
  | CreateTask n d cat r tok m dur crit kyc thr =>
      '(st', _) ← createTask st env n d cat r tok m dur crit kyc thr ; Ok st'
  | CompleteTask i p => completeTask st env i p
  | VerifyTaskCompletion i u v s => verifyTaskCompletion st env i u v s
  | UpdateTaskStatus i s => updateTaskStatus st env i s
  | SetVerificationOracle a => setVerificationOracle st env a
  | SetPayoutSplitter a => setPayoutSplitter st env a
  | AddSupportedToken a => addSupportedToken st env a
  | TransferOwnership a => transferOwnership st env a
  | RenounceOwnership => renounceOwnership st env
  end.

(** A transaction either commits the new state or, on revert, leaves the
    old one in place. *)
Definition exec (st : State) (tx : Env * Call) : State :=
  match call st tx.1 tx.2 with
  | Ok st' => st'
  | Revert _ => st
  end.

Definition run (st : State) (txs : list (Env * Call)) : State :=
  foldl exec st txs.

(** States the deployed contract can be in. *)
Inductive reachable : State → Prop :=
| reachable_init env o p st :
    constructor env o p = Ok st → reachable st
| reachable_call st env c st' :
    reachable st → call st env c = Ok st' → reachable st'.

(** [completeTask] by a series of callers on the same task, stopping at
    the first revert. *)
Fixpoint completeTask_all (st : State) (_taskId : N) (calls : list (Env * string))
  : result State :=
  match calls with
  | [] => Ok st
  | (env, _proofData) :: rest =>
      st' ← completeTask st env _taskId _proofData ;
      completeTask_all st' _taskId rest
  end.

(** The capacity invariant: in every reachable state a task never holds
    more participants than its cap, and an id that was not issued yet has
    cap 0 and no completion. *)
Definition capacity_inv (st : State) : Prop :=
  ∀ i, currentParticipants (getTask st i) <= maxParticipants (getTask st i) ∧
       (nextTaskId st <= i →
        maxParticipants (getTask st i) = 0 ∧
        ∀ u, completed (getCompletion st i u) = false).

End TaskRegistry.

(** ** The reward token

    The ERC20 token is an external contract.  It is modelled as a plain
    ledger: [transfer] moves [value] from the caller's balance to the
    recipient, reverts when the balance is short, and records the standard
    [Transfer(from, to, value)] event. *)

Module ERC20.

Record Token := mkToken {
  balances : gmap address N;
  transfers : list (address * address * N)
}.

Definition balanceOf (tok : Token) (account : address) : N :=
  default 0 (balances tok !! account).

Definition transfer (tok : Token) (from to value : N) : result Token :=
  if bool_decide (value <= balanceOf tok from) then
    let b := <[from := balanceOf tok from - value]> (balances tok) in
    let b := <[to := default 0 (b !! to) + value]> b in
    Ok (mkToken b ((from, to, value) :: transfers tok))
  else Revert (ERC20InsufficientBalance from (balanceOf tok from) value).

(** Sum of the values of a list of [Transfer] events. *)
Definition total_value (l : list (address * address * N)) : N :=
  foldr (fun e acc => e.2 + acc) 0 l.

End ERC20.

(** ** PayoutSplitter.sol *)

Module PayoutSplitter.

Record ReferralData := mkReferralData {
  directReferrer : address;
  indirectReferrers : list address;
  isActive : bool;
  totalEarnings : N;
  directEarnings : N;
  indirectEarnings : N
}.

Record PayoutDistribution := mkPayoutDistribution {
  taskCompleterReward : N;
  directReferrerReward : N;
  indirectReferrerReward : N;
  platformFee : N
}.

Inductive Event :=
| PayoutDistributed (taskCompleter : address)
    (taskId totalAmount completerAmount referrerAmount platformAmount : N)
| EarningsUpdated (user : address) (newTotal : N).

Record State := mkState {
  referrals : gmap address ReferralData;
  registeredUsers : gmap address bool;
  taskRegistry : address;
  platformWallet : address;
  supportedTokens : gmap address bool;
  owner : address;
  events : list Event
}.

Definition TASK_COMPLETER_PERCENT : N := 6000.
Definition DIRECT_REFERRER_PERCENT : N := 2500.
Definition INDIRECT_REFERRER_PERCENT : N := 1500.
Definition PLATFORM_FEE_PERCENT : N := 1000.

Definition MAX_REFERRAL_LEVELS : N := 3.

Definition zeroReferralData : ReferralData := mkReferralData 0 [] false 0 0 0.

(** [referrals[_user]], as the view [getReferralData] returns it. *)
Definition getReferralData (st : State) (_user : address) : ReferralData :=
  default zeroReferralData (referrals st !! _user).

Definition isSupportedToken (st : State) (_token : address) : bool :=
  default false (supportedTokens st !! _token).

Definition with_referrals (st : State) (m : gmap address ReferralData) : State :=
  mkState m (registeredUsers st) (taskRegistry st) (platformWallet st)
          (supportedTokens st) (owner st) (events st).

Definition emit (st : State) (e : Event) : State :=
  mkState (referrals st) (registeredUsers st) (taskRegistry st) (platformWallet st)
          (supportedTokens st) (owner st) (e :: events st).

(** [referrals[_user].totalEarnings += amount] and its two siblings. *)
Definition add_totalEarnings (st : State) (_user : address) (amount : N) : result State :=
  let r := getReferralData st _user in
  total ← checked_add (totalEarnings r) amount ;
  Ok (with_referrals st (<[_user :=
        mkReferralData (directReferrer r) (indirectReferrers r) (isActive r)
                       total (directEarnings r) (indirectEarnings r)]> (referrals st))).

Definition add_directEarnings (st : State) (_user : address) (amount : N) : result State :=
  let r := getReferralData st _user in
  direct ← checked_add (directEarnings r) amount ;
  Ok (with_referrals st (<[_user :=
        mkReferralData (directReferrer r) (indirectReferrers r) (isActive r)
                       (totalEarnings r) direct (indirectEarnings r)]> (referrals st))).

Definition add_indirectEarnings (st : State) (_user : address) (amount : N) : result State :=
  let r := getReferralData st _user in
  indirect ← checked_add (indirectEarnings r) amount ;
  Ok (with_referrals st (<[_user :=
        mkReferralData (directReferrer r) (indirectReferrers r) (isActive r)
                       (totalEarnings r) (directEarnings r) indirect]> (referrals st))).

Definition _calculateDistribution (_totalReward : N) : result PayoutDistribution :=
  c ← checked_mul _totalReward TASK_COMPLETER_PERCENT ;
  d ← checked_mul _totalReward DIRECT_REFERRER_PERCENT ;
  i ← checked_mul _totalReward INDIRECT_REFERRER_PERCENT ;
  p ← checked_mul _totalReward PLATFORM_FEE_PERCENT ;
  Ok (mkPayoutDistribution (c / 10000) (d / 10000) (i / 10000) (p / 10000)).

(** The body of the loop over [referrerData.indirectReferrers]; the loop
    only writes earnings fields, never the array it walks. *)
Fixpoint pay_indirectReferrers (self : address) (indirectRewardPerLevel : N)
    (l : list address) (st : State) (tok : ERC20.Token)
  : result (State * ERC20.Token) :=
  match l with
  | [] => Ok (st, tok)
  | indirectReferrer :: l' =>
      if bool_decide (indirectReferrer ≠ 0) then
        tok ← ERC20.transfer tok self indirectReferrer indirectRewardPerLevel ;
        st ← add_totalEarnings st indirectReferrer indirectRewardPerLevel ;
        st ← add_indirectEarnings st indirectReferrer indirectRewardPerLevel ;
        pay_indirectReferrers self indirectRewardPerLevel l' st tok
      else pay_indirectReferrers self indirectRewardPerLevel l' st tok
  end.

(** [distributePayout], run by the splitter deployed at [self] against the
    ledger [tok] of the token deployed at [_tokenAddress].  Sequential
    transactions find the [nonReentrant] guard free, so it is implicit. *)
Definition distributePayout (self : address) (st : State) (tok : ERC20.Token) (env : Env)
    (_taskCompleter : address) (_taskId _totalReward : N) (_tokenAddress : address)
  : result (State * ERC20.Token) :=
  require (bool_decide (msg_sender env = taskRegistry st))
          "Only task registry can trigger payout" ;;
  require (isSupportedToken st _tokenAddress) "Token not supported" ;;
  require (bool_decide (0 < _totalReward)) "Invalid reward amount" ;;
  require (bool_decide (_totalReward <= ERC20.balanceOf tok self))
          "Insufficient contract balance" ;;
  distribution ← _calculateDistribution _totalReward ;
  (* task completer *)
  '(st, tok) ←
    (if bool_decide (0 < taskCompleterReward distribution) then
       tok ← ERC20.transfer tok self _taskCompleter (taskCompleterReward distribution) ;
       st ← add_totalEarnings st _taskCompleter (taskCompleterReward distribution) ;
       Ok (st, tok)
     else Ok (st, tok)) ;
  (* direct referrer *)
  let direct := directReferrer (getReferralData st _taskCompleter) in
  '(st, tok) ←
    (if bool_decide (direct ≠ 0) && bool_decide (0 < directReferrerReward distribution) then
       tok ← ERC20.transfer tok self direct (directReferrerReward distribution) ;
       st ← add_totalEarnings st direct (directReferrerReward distribution) ;
       st ← add_directEarnings st direct (directReferrerReward distribution) ;
       Ok (st, tok)
     else Ok (st, tok)) ;
  (* indirect referrers *)
  '(st, tok) ←
    (if bool_decide (0 < indirectReferrerReward distribution) then
       let indirectRewardPerLevel := indirectReferrerReward distribution / MAX_REFERRAL_LEVELS in
       pay_indirectReferrers self indirectRewardPerLevel
         (indirectReferrers (getReferralData st _taskCompleter)) st tok
     else Ok (st, tok)) ;
  (* platform fee *)
  tok ←
    (if bool_decide (0 < platformFee distribution) then
       ERC20.transfer tok self (platformWallet st) (platformFee distribution)
     else Ok tok) ;
  referrerAmount ← checked_add (directReferrerReward distribution)
                               (indirectReferrerReward distribution) ;
  let st := emit st (PayoutDistributed _taskCompleter _taskId _totalReward
                       (taskCompleterReward distribution) referrerAmount
                       (platformFee distribution)) in
  Ok (emit st (EarningsUpdated _taskCompleter
                 (totalEarnings (getReferralData st _taskCompleter))), tok).

Definition onlyOwner (st : State) (env : Env) : result unit :=
  if bool_decide (owner st = msg_sender env) then Ok tt
  else Revert (OwnableUnauthorizedAccount (msg_sender env)).

(** [constructor(_taskRegistry, _platformWallet) Ownable(msg.sender)] *)
Definition constructor (env : Env) (_taskRegistry _platformWallet : address)
  : result State :=
  if bool_decide (msg_sender env = 0) then Revert (OwnableInvalidOwner 0)
  else Ok (mkState ∅ ∅ _taskRegistry _platformWallet ∅ (msg_sender env) []).

Definition addSupportedToken (st : State) (env : Env) (_token : address) : result State :=
  onlyOwner st env ;;
  Ok (mkState (referrals st) (registeredUsers st) (taskRegistry st) (platformWallet st)
              (<[_token := true]> (supportedTokens st)) (owner st) (events st)).

(** Two states with the same platform wallet and the same referral chains
    (they may differ in the earnings recorded). *)
Definition same_chains (st st' : State) : Prop :=
  platformWallet st' = platformWallet st ∧
  ∀ u, directReferrer (getReferralData st' u) = directReferrer (getReferralData st u) ∧
       indirectReferrers (getReferralData st' u) = indirectReferrers (getReferralData st u).

(** The four shares of a distribution, added up. *)
Definition total_shares (d : PayoutDistribution) : N :=
  taskCompleterReward d + directReferrerReward d + indirectReferrerReward d + platformFee d.

(** The referrers of the upstream tiers that are set. *)
Definition present (l : list address) : list address :=
  filter (λ a, a ≠ 0) l.

(** The token transfers of one settlement, newest first, as
    [distributePayout] issues them for the referral record [r] of the
    task completer. *)
Definition payout_transfers (self platform _taskCompleter : address)
    (r : ReferralData) (d : PayoutDistribution) : list (address * address * N) :=
  (if bool_decide (0 < platformFee d)
   then [(self, platform, platformFee d)] else []) ++
  (if bool_decide (0 < indirectReferrerReward d)
   then reverse ((λ a, (self, a, indirectReferrerReward d / MAX_REFERRAL_LEVELS))
                   <$> present (indirectReferrers r))
   else []) ++
  (if bool_decide (directReferrer r ≠ 0) && bool_decide (0 < directReferrerReward d)
   then [(self, directReferrer r, directReferrerReward d)] else []) ++
  (if bool_decide (0 < taskCompleterReward d)
   then [(self, _taskCompleter, taskCompleterReward d)] else []).

End PayoutSplitter.

(** ** VerifierGateway.sol *)

Module VerifierGateway.

Inductive VerificationType :=
| ONCHAIN_TRANSACTION
| OFFCHAIN_SOCIAL
| OFFCHAIN_GITHUB
| OFFCHAIN_DISCORD
| CUSTOM_ORACLE.

#[global] Instance VerificationType_eq_dec : EqDecision VerificationType.
Proof. solve_decision. Defined.

Definition VerificationType_to_N (t : VerificationType) : N :=
  match t with
  | ONCHAIN_TRANSACTION => 0
  | OFFCHAIN_SOCIAL => 1
  | OFFCHAIN_GITHUB => 2
  | OFFCHAIN_DISCORD => 3
  | CUSTOM_ORACLE => 4
  end.

(** The cast [VerificationType(i)]; out of range it panics (0x21). *)
Definition VerificationType_of_N (i : N) : option VerificationType :=
  match i with
  | 0 => Some ONCHAIN_TRANSACTION
  | 1 => Some OFFCHAIN_SOCIAL
  | 2 => Some OFFCHAIN_GITHUB
  | 3 => Some OFFCHAIN_DISCORD
  | 4 => Some CUSTOM_ORACLE
  | _ => None
  end.

#[global] Instance VerificationType_countable : Countable VerificationType.
Proof.
  refine (inj_countable VerificationType_to_N VerificationType_of_N _).
  intros []; reflexivity.
Defined.

Record VerificationResult := mkVerificationResult {
  verified : bool;
  sybilScore : N;
  proofHash : string;
  timestamp : N;
  verifier : address
}.

Record VerificationRequest := mkVerificationRequest {
  taskId : N;
  user : address;
  verificationType : VerificationType;
  proofData : string;
  processed : bool;
  result_ : VerificationResult
}.

Inductive Event :=
| VerificationRequested (taskId : N) (user : address)
    (verificationType : VerificationType) (proofData : string)
| VerificationCompleted (taskId : N) (user : address) (verified : bool) (sybilScore : N)
| OracleRegistered (oracle : address) (verificationType : VerificationType)
| OracleRemoved (oracle : address)
| OwnershipTransferred (previousOwner newOwner : address).

Record State := mkState {
  verificationRequests : gmap N VerificationRequest;
  authorizedOracles : gmap address bool;
  oracleAddresses : gmap VerificationType address;
  oracleNonces : gmap address N;
  nextRequestId : N;
  taskRegistry : address;
  owner : address;
  events : list Event
}.

Definition MIN_SYBIL_SCORE : N := 50.
Definition MAX_SYBIL_SCORE : N := 100.

Definition zeroResult : VerificationResult := mkVerificationResult false 0 "" 0 0.

Definition zeroRequest : VerificationRequest :=
  mkVerificationRequest 0 0 ONCHAIN_TRANSACTION "" false zeroResult.

(** [verificationRequests[_requestId]], as [getVerificationRequest] returns it. *)
Definition getVerificationRequest (st : State) (_requestId : N) : VerificationRequest :=
  default zeroRequest (verificationRequests st !! _requestId).

(** [authorizedOracles[a]] *)
Definition isAuthorizedOracle (st : State) (a : address) : bool :=
  default false (authorizedOracles st !! a).

(** [oracleAddresses[t]] *)
Definition oracleAddress (st : State) (t : VerificationType) : address :=
  default 0 (oracleAddresses st !! t).

Definition getOracleNonce (st : State) (_oracle : address) : N :=
  default 0 (oracleNonces st !! _oracle).

Definition with_verificationRequests (st : State) (m : gmap N VerificationRequest) : State :=
  mkState m (authorizedOracles st) (oracleAddresses st) (oracleNonces st)
          (nextRequestId st) (taskRegistry st) (owner st) (events st).

Definition with_authorizedOracles (st : State) (m : gmap address bool) : State :=
  mkState (verificationRequests st) m (oracleAddresses st) (oracleNonces st)
          (nextRequestId st) (taskRegistry st) (owner st) (events st).

Definition with_oracleAddresses (st : State) (m : gmap VerificationType address) : State :=
  mkState (verificationRequests st) (authorizedOracles st) m (oracleNonces st)
          (nextRequestId st) (taskRegistry st) (owner st) (events st).

Definition with_oracleNonces (st : State) (m : gmap address N) : State :=
  mkState (verificationRequests st) (authorizedOracles st) (oracleAddresses st) m
          (nextRequestId st) (taskRegistry st) (owner st) (events st).

Definition with_nextRequestId (st : State) (n : N) : State :=
  mkState (verificationRequests st) (authorizedOracles st) (oracleAddresses st)
          (oracleNonces st) n (taskRegistry st) (owner st) (events st).

Definition with_taskRegistry (st : State) (a : address) : State :=
  mkState (verificationRequests st) (authorizedOracles st) (oracleAddresses st)
          (oracleNonces st) (nextRequestId st) a (owner st) (events st).

Definition emit (st : State) (e : Event) : State :=
  mkState (verificationRequests st) (authorizedOracles st) (oracleAddresses st)
          (oracleNonces st) (nextRequestId st) (taskRegistry st) (owner st)
          (e :: events st).

Definition onlyOwner (st : State) (env : Env) : result unit :=
  if bool_decide (owner st = msg_sender env) then Ok tt
  else Revert (OwnableUnauthorizedAccount (msg_sender env)).

(** [constructor(_taskRegistry) Ownable(msg.sender)] *)
Definition constructor (env : Env) (_taskRegistry : address) : result State :=
  if bool_decide (msg_sender env = 0) then Revert (OwnableInvalidOwner 0)
  else Ok (mkState ∅ ∅ ∅ ∅ 1 _taskRegistry (msg_sender env)
                   [OwnershipTransferred 0 (msg_sender env)]).

(** [_triggerOGComputeVerification] and [_notifyTaskRegistry] have empty
    bodies in the source: they change nothing. *)
Definition _triggerOGComputeVerification (st : State) (_requestId : N)
    (_verificationType : VerificationType) (_proofData : string) : State := st.

Definition _notifyTaskRegistry (st : State) (_taskId : N) (_user : address)
    (_verified : bool) (_sybilScore : N) : State := st.

Definition requestVerification (st : State) (env : Env) (_taskId : N) (_user : address)
    (_verificationType : VerificationType) (_proofData : string) : result (State * N) :=
  require (bool_decide (msg_sender env = taskRegistry st))
          "Only task registry can request verification" ;;
  require (bool_decide (oracleAddress st _verificationType ≠ 0))
          "No oracle for verification type" ;;
  let requestId := nextRequestId st in
  next ← checked_add (nextRequestId st) 1 ;
  let st := with_nextRequestId st next in
  let st := with_verificationRequests st (<[requestId :=
      mkVerificationRequest _taskId _user _verificationType _proofData false
        (mkVerificationResult false 0 "" 0 0)]> (verificationRequests st)) in
  let st := emit st (VerificationRequested _taskId _user _verificationType _proofData) in
  let st := _triggerOGComputeVerification st requestId _verificationType _proofData in
  Ok (st, requestId).

Definition completeVerification (st : State) (env : Env) (_requestId : N)
    (_verified : bool) (_sybilScore : N) (_proofHash : string) : result State :=
  require (isAuthorizedOracle st (msg_sender env))
          "Only authorized oracles can complete verification" ;;
  require (bool_decide (_requestId < nextRequestId st)) "Invalid request ID" ;;
  require (negb (processed (getVerificationRequest st _requestId)))
          "Request already processed" ;;
  require (bool_decide (0 <= _sybilScore) && bool_decide (_sybilScore <= 100))
          "Invalid sybil score" ;;
  let request := getVerificationRequest st _requestId in
  let request := mkVerificationRequest (taskId request) (user request)
      (verificationType request) (proofData request) true
      (mkVerificationResult _verified _sybilScore _proofHash
                            (block_timestamp env) (msg_sender env)) in
  let st := with_verificationRequests st
              (<[_requestId := request]> (verificationRequests st)) in
  nonce ← checked_add (getOracleNonce st (msg_sender env)) 1 ;
  let st := with_oracleNonces st (<[msg_sender env := nonce]> (oracleNonces st)) in
  let st := emit st (VerificationCompleted (taskId request) (user request)
                                           _verified _sybilScore) in
  Ok (_notifyTaskRegistry st (taskId request) (user request) _verified _sybilScore).

Definition registerOracle (st : State) (env : Env) (_oracle : address)
    (_verificationType : VerificationType) : result State :=
  onlyOwner st env ;;
  require (bool_decide (_oracle ≠ 0)) "Invalid oracle address" ;;
  let st := with_authorizedOracles st (<[_oracle := true]> (authorizedOracles st)) in
  let st := with_oracleAddresses st
              (<[_verificationType := _oracle]> (oracleAddresses st)) in
  Ok (emit st (OracleRegistered _oracle _verificationType)).

(** The loop [for (i = 0; i < 5; i++)] of [removeOracle], over its indices. *)
Fixpoint clear_oracle (_oracle : address) (indices : list N) (st : State) : result State :=
  match indices with
  | [] => Ok st
  | i :: rest =>
      match VerificationType_of_N i with
      | None => Revert (Panic 33)
      | Some t =>
          let st := if bool_decide (oracleAddress st t = _oracle)
                    then with_oracleAddresses st (<[t := 0]> (oracleAddresses st))
                    else st in
          clear_oracle _oracle rest st
      end
  end.

Definition removeOracle (st : State) (env : Env) (_oracle : address) : result State :=
  onlyOwner st env ;;
  require (isAuthorizedOracle st _oracle) "Oracle not registered" ;;
  let st := with_authorizedOracles st (<[_oracle := false]> (authorizedOracles st)) in
  st ← clear_oracle _oracle [0; 1; 2; 3; 4] st ;
  Ok (emit st (OracleRemoved _oracle)).

Definition setTaskRegistry (st : State) (env : Env) (_registry : address) : result State :=
  onlyOwner st env ;;
  require (bool_decide (_registry ≠ 0)) "Invalid registry address" ;;
  Ok (with_taskRegistry st _registry).

(** The external, state-changing interface of the gateway. *)
Inductive Call :=
| RequestVerification (_taskId : N) (_user : address)
    (_verificationType : VerificationType) (_proofData : string)
| CompleteVerification (_requestId : N) (_verified : bool) (_sybilScore : N)
    (_proofHash : string)
| RegisterOracle (_oracle : address) (_verificationType : VerificationType)
| RemoveOracle (_oracle : address)
| SetTaskRegistry (_registry : address).

Definition call (st : State) (env : Env) (c : Call) : result State :=
  match c with
  | RequestVerification i u t p =>
      '(st', _) ← requestVerification st env i u t p ; Ok st'
  | CompleteVerification r v s h => completeVerification st env r v s h
  | RegisterOracle o t => registerOracle st env o t
  | RemoveOracle o => removeOracle st env o
  | SetTaskRegistry a => setTaskRegistry st env a
  end.

(** A transaction commits the new state or, on revert, keeps the old one. *)
Definition exec (st : State) (tx : Env * Call) : State :=
  match call st tx.1 tx.2 with
  | Ok st' => st'
  | Revert _ => st
  end.

Definition run (st : State) (txs : list (Env * Call)) : State :=
  foldl exec st txs.

End VerifierGateway.

(** ** A concrete deployment

    The scenario of the specification: one task with reward 100, minimum
    score 50 and room for a single participant. *)

Module Scenario.
Import TaskRegistry.

Definition admin : address := 1.
Definition oracle : address := 2.
Definition splitter : address := 3.
Definition usdc : address := 4.
Definition alice : address := 10.
Definition bob : address := 11.

(** The state the constructor leaves, deployed by [admin]. *)
Definition genesis : State :=
  mkState 1 ∅ ∅ ∅ ∅ oracle splitter ∅ admin [OwnershipTransferred 0 admin].

Definition setup : list (Env * Call) :=
  [ (mkEnv admin 1000, AddSupportedToken usdc);
    (mkEnv admin 1000,
     CreateTask "swap" "swap once" SWAP 100 usdc 1 3600 "{}" false 50) ].

(** Task 1 exists and is open. *)
Definition created : State := run genesis setup.

(** Alice has submitted her completion of task 1. *)
Definition pending : State := exec created (mkEnv alice 1010, CompleteTask 1 "0xproof").

(** A verdict on Alice's completion, delivered by the oracle. *)
Definition verdict (v : bool) (score : N) : Env * Call :=
  (mkEnv oracle 1020, VerifyTaskCompletion 1 alice v score).

(** The owner closes task 1. *)
Definition closed : State := exec created (mkEnv admin 1100, UpdateTaskStatus 1 COMPLETED).

End Scenario.

Module SplitterScenario.
Import PayoutSplitter.

Definition admin : address := 1.
Definition splitter : address := 3.
Definition usdc : address := 4.
Definition registry : address := 5.
Definition treasury : address := 6.
Definition alice : address := 10.

(** The splitter as deployed, with the reward token allowed. *)
Definition deployed : State :=
  mkState ∅ ∅ registry treasury {[usdc := true]} admin [].

(** The token ledger: the splitter holds 100 units. *)
Definition funded : ERC20.Token := ERC20.mkToken {[splitter := 100]} [].

(** The registry settles task 1 for Alice, who has no referrer. *)
Definition settle_alice : result (State * ERC20.Token) :=
  distributePayout splitter deployed funded (mkEnv registry 1030) alice 1 100 usdc.

(** The outcome of that settlement (the inputs unchanged, had it reverted). *)
Definition settled : State * ERC20.Token :=
  match settle_alice with
  | Ok r => r
  | Revert _ => (deployed, funded)
  end.

End SplitterScenario.

Module GatewayScenario.
Import VerifierGateway.

Definition admin : address := 1.
Definition registry : address := 5.
Definition chainOracle : address := 20.
Definition socialOracle : address := 21.
Definition alice : address := 10.

(** The state the constructor leaves, deployed by [admin]. *)
Definition genesis : State :=
  mkState ∅ ∅ ∅ ∅ 1 registry admin [OwnershipTransferred 0 admin].

(** One verifier per category for two categories; no request yet. *)
Definition registered : State :=
  run genesis
    [ (mkEnv admin 1000, RegisterOracle chainOracle ONCHAIN_TRANSACTION);
      (mkEnv admin 1000, RegisterOracle socialOracle OFFCHAIN_SOCIAL) ].

(** Request 1: an on-chain proof by Alice for task 1. *)
Definition requested : State :=
  exec registered
    (mkEnv registry 1010, RequestVerification 1 alice ONCHAIN_TRANSACTION "0xproof").

(** Request 1 answered by the verifier of its category. *)
Definition answered : State :=
  exec requested (mkEnv chainOracle 1020, CompleteVerification 1 true 80 "0xdigest").

End GatewayScenario.

(** ** Derived views of the registry state *)

Module TaskRegistryViews.
Import TaskRegistry.

(** The (task, user) pairs with a completion on record for task [i]. *)
Definition participants (st : State) (i : N) : gset (N * address) :=
  filter (λ k : N * address, k.1 = i) (dom (taskCompletions st)).

(** Every task that has room for participants was issued by [createTask]
    with parameters that passed its checks. *)
Definition tasks_wf (st : State) : Prop :=
  1 <= nextTaskId st ∧
  ∀ i, 0 < maxParticipants (getTask st i) →
    1 <= i < nextTaskId st ∧
    id (getTask st i) = i ∧
    0 < rewardAmount (getTask st i) ∧
    rewardToken (getTask st i) ≠ 0 ∧
    startTime (getTask st i) < endTime (getTask st i).

(** The three records of participation agree: the completion table, the
    per-task participant count and the per-user list of completed tasks. *)
Definition books_agree (st : State) : Prop :=
  (∀ k c, taskCompletions st !! k = Some c →
          completed c = true ∧ user c = k.2 ∧ taskId c = k.1) ∧
  (∀ i, N.of_nat (size (participants st i)) = currentParticipants (getTask st i)) ∧
  (∀ u, NoDup (getUserCompletedTasks st u) ∧
        ∀ i, i ∈ getUserCompletedTasks st u ↔ is_Some (taskCompletions st !! (i, u))).

(** The fields of a task that [createTask] fixes. *)
Definition terms (t : Task) : N * address * string * string * TaskCategory
                              * N * address * N * N * N * string * bool * N :=
  (id t, advertiser t, name t, description t, category t, rewardAmount t,
   rewardToken t, maxParticipants t, startTime t, endTime t,
   verificationCriteria t, requiresKYC t, sybilThreshold t).

(** The fields of a completion that [completeTask] fixes. *)
Definition submission (c : TaskCompletion) : address * N * bool * N * string :=
  (user c, taskId c, completed c, completionTime c, proofData c).

End TaskRegistryViews.

(** ** PayoutSplitter.sol: registration and administration *)

Module PayoutSplitterAdmin.
Import PayoutSplitter.

(** Events of the functions below; the settlement events are the ones of
    [PayoutSplitter.Event].  A function here returns the events it emits
    next to the new state. *)
Inductive AdminEvent :=
| ReferralRegistered (user referrer : address)
| OwnershipTransferred (previousOwner newOwner : address).

Definition isRegistered (st : State) (_user : address) : bool :=
  default false (registeredUsers st !! _user).

Definition with_registeredUsers (st : State) (m : gmap address bool) : State :=
  mkState (referrals st) m (taskRegistry st) (platformWallet st)
          (supportedTokens st) (owner st) (events st).

Definition with_taskRegistry (st : State) (a : address) : State :=
  mkState (referrals st) (registeredUsers st) a (platformWallet st)
          (supportedTokens st) (owner st) (events st).

Definition with_platformWallet (st : State) (a : address) : State :=
  mkState (referrals st) (registeredUsers st) (taskRegistry st) a
          (supportedTokens st) (owner st) (events st).

Definition with_owner (st : State) (a : address) : State :=
  mkState (referrals st) (registeredUsers st) (taskRegistry st) (platformWallet st)
          (supportedTokens st) a (events st).

(** [referrals[_user].directReferrer = a] and its two siblings. *)
Definition set_directReferrer (st : State) (_user a : address) : State :=
  let r := getReferralData st _user in
  with_referrals st (<[_user :=
    mkReferralData a (indirectReferrers r) (isActive r)
                   (totalEarnings r) (directEarnings r) (indirectEarnings r)]>
    (referrals st)).

Definition set_indirectReferrers (st : State) (_user : address) (l : list address) : State :=
  let r := getReferralData st _user in
  with_referrals st (<[_user :=
    mkReferralData (directReferrer r) l (isActive r)
                   (totalEarnings r) (directEarnings r) (indirectEarnings r)]>
    (referrals st)).

Definition set_isActive (st : State) (_user : address) (b : bool) : State :=
  let r := getReferralData st _user in
  with_referrals st (<[_user :=
    mkReferralData (directReferrer r) (indirectReferrers r) b
                   (totalEarnings r) (directEarnings r) (indirectEarnings r)]>
    (referrals st)).

(** The placeholder of the source: every code resolves to the zero address. *)
Definition _getAddressFromReferralCode (st : State) (_referralCode : string) : address := 0.

(** The loop of [registerWithReferral] over [i = 0, 1, 2]: it walks up the
    chain of direct referrers from [currentReferrer] and stops at the first
    zero address. *)
Fixpoint build_chain (sender : address) (indices : list N) (st : State)
    (indirectReferrers : list address) (currentReferrer : address)
  : State * list address :=
  match indices with
  | [] => (st, indirectReferrers)
  | i :: rest =>
      if bool_decide (currentReferrer = 0) then (st, indirectReferrers)
      else
        let '(st, indirectReferrers) :=
          if bool_decide (i = 0)
          then (set_directReferrer st sender currentReferrer, indirectReferrers)
          else (st, <[N.to_nat (i - 1) := currentReferrer]> indirectReferrers) in
        build_chain sender rest st indirectReferrers
                    (directReferrer (getReferralData st currentReferrer))
  end.

Definition registerWithReferral (st : State) (env : Env) (_referrerCode : string)
  : result (State * list AdminEvent) :=
  require (negb (isRegistered st (msg_sender env))) "User already registered" ;;
  let referrer := _getAddressFromReferralCode st _referrerCode in
  require (bool_decide (referrer ≠ 0)) "Invalid referral code" ;;
  require (bool_decide (referrer ≠ msg_sender env)) "Cannot refer yourself" ;;
  let '(st, indirectReferrers) :=
    build_chain (msg_sender env) [0; 1; 2] st
                (replicate (N.to_nat MAX_REFERRAL_LEVELS) 0) referrer in
  let st := set_indirectReferrers st (msg_sender env) indirectReferrers in
  let st := set_isActive st (msg_sender env) true in
  let st := with_registeredUsers st (<[msg_sender env := true]> (registeredUsers st)) in
  Ok (st, [ReferralRegistered (msg_sender env) referrer]).

Definition setPlatformWallet (st : State) (env : Env) (_wallet : address) : result State :=
  onlyOwner st env ;;
  require (bool_decide (_wallet ≠ 0)) "Invalid wallet address" ;;
  Ok (with_platformWallet st _wallet).

Definition setTaskRegistry (st : State) (env : Env) (_registry : address) : result State :=
  onlyOwner st env ;;
  require (bool_decide (_registry ≠ 0)) "Invalid registry address" ;;
  Ok (with_taskRegistry st _registry).

(** [emergencyWithdraw], on the ledger [tok] of the token at [_token]. *)
Definition emergencyWithdraw (self : address) (st : State) (tok : ERC20.Token) (env : Env)
    (_token : address) (_amount : N) : result ERC20.Token :=
  onlyOwner st env ;;
  ERC20.transfer tok self (owner st) _amount.

(** The two state-changing functions inherited from [Ownable]. *)
Definition transferOwnership (st : State) (env : Env) (newOwner : address)
  : result (State * list AdminEvent) :=
  onlyOwner st env ;;
  if bool_decide (newOwner = 0) then Revert (OwnableInvalidOwner 0)
  else Ok (with_owner st newOwner, [OwnershipTransferred (owner st) newOwner]).

Definition renounceOwnership (st : State) (env : Env) : result (State * list AdminEvent) :=
  onlyOwner st env ;;
  Ok (with_owner st 0, [OwnershipTransferred (owner st) 0]).

(** The external, state-changing interface of the splitter.  A call runs
    against the ledger of the token it names (the other calls leave the
    ledger alone). *)
Inductive Call :=
| RegisterWithReferral (_referrerCode : string)
| DistributePayout (_taskCompleter : address) (_taskId _totalReward : N)
                   (_tokenAddress : address)
| AddSupportedToken (_token : address)
| SetPlatformWallet (_wallet : address)
| SetTaskRegistry (_registry : address)
| EmergencyWithdraw (_token : address) (_amount : N)
| TransferOwnership (newOwner : address)
| RenounceOwnership.

Definition call (self : address) (st : State) (tok : ERC20.Token) (env : Env) (c : Call)
  : result (State * ERC20.Token) :=
  match c with
  | RegisterWithReferral code =>
      '(st', _) ← registerWithReferral st env code ; Ok (st', tok)
  | DistributePayout u i r a => distributePayout self st tok env u i r a
  | AddSupportedToken a => st' ← addSupportedToken st env a ; Ok (st', tok)
  | SetPlatformWallet a => st' ← setPlatformWallet st env a ; Ok (st', tok)
  | SetTaskRegistry a => st' ← setTaskRegistry st env a ; Ok (st', tok)
  | EmergencyWithdraw a n => tok' ← emergencyWithdraw self st tok env a n ; Ok (st, tok')
  | TransferOwnership a => '(st', _) ← transferOwnership st env a ; Ok (st', tok)
  | RenounceOwnership => '(st', _) ← renounceOwnership st env ; Ok (st', tok)
  end.

(** States the splitter deployed at [self] can be in, whatever the token
    ledgers hold. *)
Inductive reachable (self : address) : State → Prop :=
| reachable_init env r w st :
    constructor env r w = Ok st → reachable self st
| reachable_call st tok env c st' tok' :
    reachable self st → call self st tok env c = Ok (st', tok') → reachable self st'.

(** [st'] differs from [st] at most in recorded earnings and in the
    event log. *)
Definition earnings_only (st st' : State) : Prop :=
  registeredUsers st' = registeredUsers st ∧
  taskRegistry st' = taskRegistry st ∧
  platformWallet st' = platformWallet st ∧
  supportedTokens st' = supportedTokens st ∧
  owner st' = owner st ∧
  ∀ u, directReferrer (getReferralData st' u) = directReferrer (getReferralData st u) ∧
       indirectReferrers (getReferralData st' u) = indirectReferrers (getReferralData st u) ∧
       isActive (getReferralData st' u) = isActive (getReferralData st u).

(** Nobody is registered and nobody has a referrer. *)
Definition no_referrals (st : State) : Prop :=
  ∀ u, isRegistered st u = false ∧
       directReferrer (getReferralData st u) = 0 ∧
       indirectReferrers (getReferralData st u) = [].

End PayoutSplitterAdmin.

(** ** VerifierGateway.sol: ownership and reachable states *)

Module VerifierGatewayAdmin.
Import VerifierGateway.

Definition with_owner (st : State) (a : address) : State :=
  mkState (verificationRequests st) (authorizedOracles st) (oracleAddresses st)
          (oracleNonces st) (nextRequestId st) (taskRegistry st) a (events st).

(** The two state-changing functions inherited from [Ownable]. *)
Definition transferOwnership (st : State) (env : Env) (newOwner : address) : result State :=
  onlyOwner st env ;;
  if bool_decide (newOwner = 0) then Revert (OwnableInvalidOwner 0)
  else Ok (emit (with_owner st newOwner) (OwnershipTransferred (owner st) newOwner)).

Definition renounceOwnership (st : State) (env : Env) : result State :=
  onlyOwner st env ;;
  Ok (emit (with_owner st 0) (OwnershipTransferred (owner st) 0)).

(** [checkSybilResistance]: a placeholder view that accepts everybody. *)
Definition checkSybilResistance (st : State) (_user : address) (_minScore : N) : bool := true.

(** Every transaction the gateway accepts: its own functions and the
    inherited ones. *)
Inductive Tx :=
| Gateway (c : Call)
| TransferOwnership (newOwner : address)
| RenounceOwnership.

Definition step (st : State) (env : Env) (tx : Tx) : result State :=
  match tx with
  | Gateway c => call st env c
  | TransferOwnership a => transferOwnership st env a
  | RenounceOwnership => renounceOwnership st env
  end.

(** States the deployed gateway can be in. *)
Inductive reachable : State → Prop :=
| reachable_init env r st :
    constructor env r = Ok st → reachable st
| reachable_step st env tx st' :
    reachable st → step st env tx = Ok st' → reachable st'.

(** The request table is well formed: nothing is stored from the next id
    on, a request not yet processed carries the empty result, and no
    recorded score exceeds [MAX_SYBIL_SCORE]. *)
Definition requests_wf (st : State) : Prop :=
  1 <= nextRequestId st ∧
  ∀ rid,
    (nextRequestId st <= rid → verificationRequests st !! rid = None) ∧
    (processed (getVerificationRequest st rid) = false →
     result_ (getVerificationRequest st rid) = zeroResult) ∧
    sybilScore (result_ (getVerificationRequest st rid)) <= MAX_SYBIL_SCORE.

(** The oracle tables are consistent: the zero address is never
    authorized, and the verifier registered for a category is. *)
Definition oracles_wf (st : State) : Prop :=
  isAuthorizedOracle st 0 = false ∧
  ∀ t, oracleAddress st t ≠ 0 → isAuthorizedOracle st (oracleAddress st t) = true.

(** The part of a request that [requestVerification] fixes. *)
Definition asked (r : VerificationRequest) : N * address * VerificationType * string :=
  (taskId r, user r, verificationType r, proofData r).

End VerifierGatewayAdmin.

(** ** lib/sybil-detection.ts: the local risk score

    [calculateSybilScore] reads the two integer fields of the fingerprint
    ([hardwareConcurrency], [maxTouchPoints], integers by the Navigator
    API) and its strings; [colorDepth] and [pixelRatio] are carried along
    and not read. *)

Module SybilDetection.

Record DeviceFingerprint := mkDeviceFingerprint {
  userAgent : string;
  screenResolution : string;
  timezone : string;
  language : string;
  platform : string;
  cookieEnabled : bool;
  doNotTrack : string;
  hardwareConcurrency : Z;
  maxTouchPoints : Z;
  colorDepth : Z;
  pixelRatio : Qc
}.

Inductive RiskLevel := LOW | MEDIUM | HIGH.

Record SybilDetectionResult := mkSybilDetectionResult {
  score : Z;
  riskLevel : RiskLevel;
  factors : list string;
  recommendations : list string
}.

(** [s.includes(sub)] *)
Definition includes (s sub : string) : bool :=
  match String.index 0 sub s with
  | Some _ => true
  | None => false
  end.

(** The three mutable locals of [calculateSybilScore]. *)
Record Tally := mkTally {
  t_score : Z;
  t_factors : list string;
  t_recommendations : list string
}.

(** [score += delta; factors.push(factor)] *)
Definition adjust (t : Tally) (delta : Z) (factor : string) : Tally :=
  mkTally (t_score t + delta) (t_factors t ++ [factor]) (t_recommendations t).

(** [recommendations.push(r)] *)
Definition recommend (t : Tally) (r : string) : Tally :=
  mkTally (t_score t) (t_factors t) (t_recommendations t ++ [r]).

Definition calculateSybilScore (fingerprint : DeviceFingerprint) : SybilDetectionResult :=
  let t := mkTally 100 [] [] in
  let t :=
    if includes (userAgent fingerprint) "HeadlessChrome"
       || includes (userAgent fingerprint) "PhantomJS"
    then recommend (adjust t (-30) "Automated browser detected") "Use a standard browser"
    else t in
  let t :=
    if String.eqb (screenResolution fingerprint) "1920x1080"
       && String.eqb (timezone fingerprint) "UTC"
    then adjust t (-15) "Common bot configuration detected"
    else t in
  let t :=
    if bool_decide (hardwareConcurrency fingerprint < 2)%Z
    then adjust t (-10) "Low hardware concurrency"
    else t in
  let t :=
    if bool_decide (maxTouchPoints fingerprint = 0)%Z
       && includes (platform fingerprint) "Mobile"
    then adjust t (-20) "Mobile device without touch support"
    else t in
  let t :=
    if negb (cookieEnabled fingerprint)
    then recommend (adjust t (-15) "Cookies disabled")
                   "Enable cookies for better verification"
    else t in
  let t :=
    if String.eqb (doNotTrack fingerprint) "1"
    then adjust t (-5) "Do Not Track enabled"
    else t in
  let t :=
    if negb (String.eqb (language fingerprint) "en-US")
       && negb (String.eqb (language fingerprint) "en")
    then adjust t 5 "Non-English language preference"
    else t in
  let t :=
    if negb (String.eqb (timezone fingerprint) "UTC")
       && negb (String.eqb (timezone fingerprint) "America/New_York")
    then adjust t 5 "Non-standard timezone"
    else t in
  let score := Z.max 0 (Z.min 100 (t_score t)) in
  let riskLevel :=
    if bool_decide (80 <= score)%Z then LOW
    else if bool_decide (60 <= score)%Z then MEDIUM
    else HIGH in
  mkSybilDetectionResult score riskLevel (t_factors t) (t_recommendations t).

(** The fingerprint [generateDeviceFingerprint] falls back to when there
    is no browser window. *)
Definition serverFingerprint : DeviceFingerprint :=
  mkDeviceFingerprint "" "" "" "" "" false "" 0 0 0 0%Qc.

End SybilDetection.

(** * Properties *)

(** ** The result monad *)

Lemma bind_Ok {A B} (m : result A) (f : A → result B) (b : B) :
  m ≫= f = Ok b ↔ ∃ a, m = Ok a ∧ f a = Ok b.
Proof.
  destruct m as [a|e]; simpl; split.
  - eauto.
  - intros (a' & [= <-] & ?); done.
  - done.
  - intros (? & ? & ?); done.
Qed.

Lemma require_Ok (c : bool) (msg : string) (u : unit) :
  require c msg = Ok u ↔ c = true.
Proof. destruct c, u; simpl; split; done. Qed.

Lemma require_true (msg : string) : require true msg = Ok tt.
Proof. done. Qed.

Lemma checked_add_Ok (a b c : N) :
  checked_add a b = Ok c ↔ c = a + b ∧ a + b <= uint256_max.
Proof.
  unfold checked_add. case_bool_decide; split.
  - intros [= <-]; done.
  - intros [-> _]; done.
  - done.
  - intros [_ ?]; done.
Qed.

Lemma checked_mul_Ok (a b c : N) :
  checked_mul a b = Ok c ↔ c = a * b ∧ a * b <= uint256_max.
Proof.
  unfold checked_mul. case_bool_decide; split.
  - intros [= <-]; done.
  - intros [-> _]; done.
  - done.
  - intros [_ ?]; done.
Qed.

(** Invert a successful run of a monadic body, one bind at a time. *)
Ltac inv_Ok H :=
  repeat first
    [ apply bind_Ok in H as (? & ?%require_Ok & H)
    | apply bind_Ok in H as (? & ?%checked_add_Ok & H)
    | apply bind_Ok in H as (? & ? & H)
    | progress cbv zeta in H ].

Module TaskRegistryFacts.
Import TaskRegistry.

Lemma onlyOwner_Ok st env u : onlyOwner st env = Ok u ↔ owner st = msg_sender env.
Proof. unfold onlyOwner. destruct u. case_bool_decide; split; done. Qed.

Lemma getTask_insert st i j t :
  default zeroTask (<[j := t]> (tasks st) !! i) =
  if decide (i = j) then t else getTask st i.
Proof.
  unfold getTask. destruct (decide (i = j)) as [->|Hne].
  - by rewrite lookup_insert_eq.
  - by rewrite lookup_insert_ne.
Qed.

Lemma getCompletion_insert st (k k' : N * address) c :
  default zeroCompletion (<[k' := c]> (taskCompletions st) !! k) =
  if decide (k = k') then c else getCompletion st k.1 k.2.
Proof.
  unfold getCompletion. destruct k as [i u]. destruct (decide ((i, u) = k')) as [<-|Hne].
  - by rewrite lookup_insert_eq.
  - by rewrite lookup_insert_ne.
Qed.

Lemma getUserTotalEarnings_insert st (u w : address) n :
  default 0 (<[w := n]> (userTotalEarnings st) !! u) =
  if decide (u = w) then n else getUserTotalEarnings st u.
Proof.
  unfold getUserTotalEarnings. destruct (decide (u = w)) as [->|Hne].
  - by rewrite lookup_insert_eq.
  - by rewrite lookup_insert_ne.
Qed.

(** *** Task status *)

Lemma createTask_tasks st env n d cat r tok m dur crit kyc thr st' tid :
  createTask st env n d cat r tok m dur crit kyc thr = Ok (st', tid) →
  tid = nextTaskId st ∧
  nextTaskId st' = nextTaskId st + 1 ∧
  taskCompletions st' = taskCompletions st ∧
  tasks st' = <[tid := mkTask tid (msg_sender env) n d cat ACTIVE r tok m 0
                         (block_timestamp env) (block_timestamp env + dur)
                         crit kyc thr]> (tasks st).
Proof.
  intros H. unfold createTask in H. inv_Ok H.
  injection H as <- <-. simpl.
  repeat match goal with H : _ ∧ _ |- _ => destruct H as [-> ?] end.
  done.
Qed.

Lemma completeTask_Ok st env i p st' :
  completeTask st env i p = Ok st' →
  status (getTask st i) = ACTIVE ∧
  startTime (getTask st i) <= block_timestamp env <= endTime (getTask st i) ∧
  currentParticipants (getTask st i) < maxParticipants (getTask st i) ∧
  completed (getCompletion st i (msg_sender env)) = false ∧
  nextTaskId st' = nextTaskId st ∧
  tasks st' = <[i := set_currentParticipants (getTask st i)
                        (currentParticipants (getTask st i) + 1)]> (tasks st) ∧
  taskCompletions st' =
    <[(i, msg_sender env) :=
        mkTaskCompletion (msg_sender env) i true false (block_timestamp env) p 0]>
      (taskCompletions st) ∧
  userTotalEarnings st' = userTotalEarnings st.
Proof.
  intros H. unfold completeTask in H. inv_Ok H.
  injection H as <-. simpl in *.
  repeat match goal with
         | H : bool_decide _ = true |- _ => apply bool_decide_eq_true in H
         | H : _ && _ = true |- _ => apply andb_true_iff in H as [? ?]
         | H : negb _ = true |- _ => apply negb_true_iff in H
         | H : _ ∧ _ |- _ => destruct H as [-> ?]
         end.
  done.
Qed.

Lemma verifyTaskCompletion_Ok st env i u v s st' :
  verifyTaskCompletion st env i u v s = Ok st' →
  msg_sender env = verificationOracle st ∧
  completed (getCompletion st i u) = true ∧
  nextTaskId st' = nextTaskId st ∧
  tasks st' = tasks st ∧
  taskCompletions st' =
    <[(i, u) := set_verdict (getCompletion st i u) v s]> (taskCompletions st) ∧
  getUserTotalEarnings st' u =
    getUserTotalEarnings st u +
    (if v && bool_decide (sybilThreshold (getTask st i) <= s)
     then rewardAmount (getTask st i) else 0) ∧
  (∀ w, w ≠ u → getUserTotalEarnings st' w = getUserTotalEarnings st w).
Proof.
  intros H. unfold verifyTaskCompletion in H. inv_Ok H.
  injection H as <-. simpl in *.
  match goal with H : bool_decide _ = true |- _ => apply bool_decide_eq_true in H end.
  change (getTask (with_taskCompletions st ?m) i) with (getTask st i) in *.
  destruct (v && bool_decide (sybilThreshold (getTask st i) <= s)).
  - match goal with H : _triggerPayout _ _ _ = Ok _ |- _ =>
      unfold _triggerPayout in H; inv_Ok H; injection H as <- end.
    simpl in *.
    match goal with H : _ ∧ _ |- _ => destruct H as [-> ?] end.
    repeat split; try done.
    + unfold getUserTotalEarnings at 1. simpl. by rewrite lookup_insert_eq.
    + intros w Hw. unfold getUserTotalEarnings at 1. simpl.
      by rewrite lookup_insert_ne.
  - match goal with H : Ok _ = Ok _ |- _ => injection H as <- end.
    simpl. repeat split; try done.
    unfold getUserTotalEarnings; simpl. lia.
Qed.

Lemma updateTaskStatus_Ok st env i s st' :
  updateTaskStatus st env i s = Ok st' →
  owner st = msg_sender env ∧ i < nextTaskId st ∧
  nextTaskId st' = nextTaskId st ∧
  tasks st' = <[i := set_status (getTask st i) s]> (tasks st) ∧
  taskCompletions st' = taskCompletions st ∧
  userTotalEarnings st' = userTotalEarnings st.
Proof.
  intros H. unfold updateTaskStatus in H. inv_Ok H.
  injection H as <-. simpl.
  match goal with H : onlyOwner _ _ = Ok _ |- _ => apply onlyOwner_Ok in H end.
  match goal with H : bool_decide _ = true |- _ => apply bool_decide_eq_true in H end.
  done.
Qed.

(** The five administrative calls that touch neither tasks nor completions. *)
Lemma admin_calls_frame st env c st' :
  match c with
  | SetVerificationOracle _ | SetPayoutSplitter _ | AddSupportedToken _
  | TransferOwnership _ | RenounceOwnership => True
  | _ => False
  end →
  call st env c = Ok st' →
  nextTaskId st' = nextTaskId st ∧ tasks st' = tasks st ∧
  taskCompletions st' = taskCompletions st ∧
  userTotalEarnings st' = userTotalEarnings st.
Proof.
  intros Hc H. destruct c; try done; simpl in H.
  - unfold setVerificationOracle in H. inv_Ok H. by injection H as <-.
  - unfold setPayoutSplitter in H. inv_Ok H. by injection H as <-.
  - unfold addSupportedToken in H. inv_Ok H. by injection H as <-.
  - unfold transferOwnership in H. inv_Ok H.
    case_bool_decide; [done|]. by injection H as <-.
  - unfold renounceOwnership in H. inv_Ok H. by injection H as <-.
Qed.

Lemma call_createTask_Ok st env n d cat r tok m dur crit kyc thr st' :
  call st env (CreateTask n d cat r tok m dur crit kyc thr) = Ok st' →
  createTask st env n d cat r tok m dur crit kyc thr = Ok (st', nextTaskId st).
Proof.
  simpl. intros H. apply bind_Ok in H as ([st1 tid] & Hc & [= <-]).
  pose proof (createTask_tasks _ _ _ _ _ _ _ _ _ _ _ _ _ _ Hc) as [-> _]. done.
Qed.

(** Case analysis on a successful call: what it did to the task table,
    the completion table and the task counter. *)
Ltac call_cases H :=
  match type of H with call _ _ ?c = Ok _ => destruct c end;
  [ apply call_createTask_Ok, createTask_tasks in H as (_ & Hnext & Hcompl & Htasks)
  | apply completeTask_Ok in H
      as (Hact & Hwin & Hroom & Hnew & Hnext & Htasks & Hcompl & Hearn)
  | apply verifyTaskCompletion_Ok in H
      as (Horacle & Hdone & Hnext & Htasks & Hcompl & Hearn & Hearn')
  | apply updateTaskStatus_Ok in H
      as (Hown & Hex & Hnext & Htasks & Hcompl & Hearn)
  | apply admin_calls_frame in H as (Hnext & Htasks & Hcompl & Hearn); [|done] .. ].

Lemma getTask_eq st st' i : tasks st' = tasks st → getTask st' i = getTask st i.
Proof. unfold getTask. by intros ->. Qed.

Lemma getCompletion_eq st st' i u :
  taskCompletions st' = taskCompletions st → getCompletion st' i u = getCompletion st i u.
Proof. unfold getCompletion. by intros ->. Qed.

Lemma getTask_step st st' i j t :
  tasks st' = <[j := t]> (tasks st) →
  getTask st' i = if decide (i = j) then t else getTask st i.
Proof. intros H. unfold getTask at 1. rewrite H. apply getTask_insert. Qed.

Lemma getCompletion_step st st' i u k c :
  taskCompletions st' = <[k := c]> (taskCompletions st) →
  getCompletion st' i u = if decide ((i, u) = k) then c else getCompletion st i u.
Proof.
  intros H. unfold getCompletion at 1. rewrite H.
  apply (getCompletion_insert st (i, u)).
Qed.

(** *** The capacity invariant *)

Lemma capacity_inv_init env o p st : constructor env o p = Ok st → capacity_inv st.
Proof.
  unfold constructor. case_bool_decide; [done|]. intros [= <-] i.
  unfold getTask, getCompletion; simpl. rewrite !lookup_empty; simpl.
  split; [lia|]. intros _. split; [done|]. intros u. by rewrite lookup_empty.
Qed.

Lemma capacity_inv_call st env c st' :
  capacity_inv st → call st env c = Ok st' → capacity_inv st'.
Proof.
  intros Hinv H i. destruct (Hinv i) as [Hle Hfresh].
  call_cases H.
  5-9: (* the administrative calls *)
    rewrite (getTask_eq _ _ _ Htasks), Hnext; (split; [done|]); intros Hi;
    (destruct Hfresh as [? Hc]; [done|]); (split; [done|]);
    intros u; by rewrite (getCompletion_eq _ _ _ _ Hcompl).
  - (* createTask *)
    rewrite (getTask_step _ _ _ _ _ Htasks). rewrite Hnext.
    destruct (decide (i = nextTaskId st)) as [->|Hne]; simpl.
    + split; [lia|]. intros ?; lia.
    + split; [done|]. intros Hi.
      destruct Hfresh as [? Hc]; [lia|]. split; [done|].
      intros u. by rewrite (getCompletion_eq _ _ _ _ Hcompl).
  - (* completeTask *)
    rewrite (getTask_step _ _ _ _ _ Htasks), Hnext.
    destruct (decide (i = _taskId)) as [->|Hne]; simpl.
    + split; [lia|]. intros Hi. destruct Hfresh as [H0 _]; [done|]. lia.
    + split; [done|]. intros Hi. destruct Hfresh as [? Hc]; [done|].
      split; [done|]. intros u.
      rewrite (getCompletion_step _ _ _ _ _ _ Hcompl).
      destruct (decide _) as [[= ? ?]|]; [done|]. apply Hc.
  - (* verifyTaskCompletion *)
    rewrite (getTask_eq _ _ _ Htasks), Hnext.
    split; [done|]. intros Hi. destruct Hfresh as [? Hc]; [done|].
    split; [done|]. intros u.
    rewrite (getCompletion_step _ _ _ _ _ _ Hcompl).
    destruct (decide _) as [[= -> ->]|]; [|apply Hc]. simpl.
    rewrite Hc in Hdone. done.
  - (* updateTaskStatus *)
    rewrite (getTask_step _ _ _ _ _ Htasks), Hnext.
    destruct (decide (i = _taskId)) as [->|Hne]; simpl.
    + split; [done|]. intros ?; lia.
    + split; [done|]. intros Hi. destruct Hfresh as [? Hc]; [done|].
      split; [done|]. intros u. by rewrite (getCompletion_eq _ _ _ _ Hcompl).
Qed.

Lemma reachable_capacity_inv st : reachable st → capacity_inv st.
Proof.
  induction 1 as [env o p st Hinit | st env c st' _ IH Hcall].
  - by eapply capacity_inv_init.
  - by eapply capacity_inv_call.
Qed.

Lemma reachable_exec st tx : reachable st → reachable (exec st tx).
Proof.
  intros H. unfold exec. destruct (call st tx.1 tx.2) eqn:E; [|done].
  by eapply reachable_call.
Qed.

Lemma reachable_run st txs : reachable st → reachable (run st txs).
Proof.
  revert st. induction txs as [|tx txs IH]; intros st H; [done|].
  simpl. apply IH. by apply reachable_exec.
Qed.

(** *** completeTask: capacity and duplicates *)

Section completeTask.
Variables (st : State) (env : Env) (i : N) (p : string).
Hypothesis Hactive : status (getTask st i) = ACTIVE.
Hypothesis Hwindow :
  startTime (getTask st i) <= block_timestamp env <= endTime (getTask st i).

Lemma completeTask_full :
  maxParticipants (getTask st i) <= currentParticipants (getTask st i) →
  completeTask st env i p = Revert (Error "Task is full").
Proof using Hactive Hwindow.
  intros Hfull. unfold completeTask.
  repeat case_bool_decide; simpl; try done; lia.
Qed.

Lemma completeTask_duplicate :
  currentParticipants (getTask st i) < maxParticipants (getTask st i) →
  completed (getCompletion st i (msg_sender env)) = true →
  completeTask st env i p = Revert (Error "Task already completed by user").
Proof using Hactive Hwindow.
  intros Hroom Hdup. unfold completeTask. rewrite Hdup.
  repeat case_bool_decide; simpl; try done; lia.
Qed.

Lemma completeTask_succeeds :
  currentParticipants (getTask st i) < maxParticipants (getTask st i) →
  maxParticipants (getTask st i) <= uint256_max →
  completed (getCompletion st i (msg_sender env)) = false →
  ∃ st', completeTask st env i p = Ok st'.
Proof using Hactive Hwindow.
  intros Hroom Hmax Hnew. unfold completeTask, checked_add. rewrite Hnew.
  change (getTask (with_taskCompletions st ?m) i) with (getTask st i).
  repeat case_bool_decide; simpl; try done; try lia; eauto.
Qed.
End completeTask.

(** What a successful [completeTask] leaves behind. *)
Lemma completeTask_post st env i p st' :
  completeTask st env i p = Ok st' →
  getCompletion st' i (msg_sender env) =
    mkTaskCompletion (msg_sender env) i true false (block_timestamp env) p 0 ∧
  (∀ u, u ≠ msg_sender env → getCompletion st' i u = getCompletion st i u) ∧
  getTask st' i = set_currentParticipants (getTask st i)
                    (currentParticipants (getTask st i) + 1).
Proof.
  intros H. apply completeTask_Ok in H
    as (_ & _ & _ & _ & _ & Htasks & Hcompl & _).
  split; [|split].
  - rewrite (getCompletion_step _ _ _ _ _ _ Hcompl). by rewrite decide_True.
  - intros u Hu. rewrite (getCompletion_step _ _ _ _ _ _ Hcompl).
    rewrite decide_False; [done|]. by intros [= ->].
  - rewrite (getTask_step _ _ _ _ _ Htasks). by rewrite decide_True.
Qed.

(** [k] distinct newcomers fit into [k] free places. *)
Lemma completeTask_all_fills i calls : ∀ st,
  status (getTask st i) = ACTIVE →
  maxParticipants (getTask st i) <= uint256_max →
  NoDup ((λ c : Env * string, msg_sender c.1) <$> calls) →
  Forall (λ c : Env * string,
            (startTime (getTask st i) <= block_timestamp c.1 <= endTime (getTask st i)) ∧
            completed (getCompletion st i (msg_sender c.1)) = false) calls →
  currentParticipants (getTask st i) + N.of_nat (length calls)
    <= maxParticipants (getTask st i) →
  ∃ st', completeTask_all st i calls = Ok st' ∧
    getTask st' i = set_currentParticipants (getTask st i)
        (currentParticipants (getTask st i) + N.of_nat (length calls)) ∧
    (∀ u, u ∉ (λ c : Env * string, msg_sender c.1) <$> calls →
          getCompletion st' i u = getCompletion st i u) ∧
    Forall (λ c : Env * string,
              getCompletion st' i (msg_sender c.1) =
                mkTaskCompletion (msg_sender c.1) i true false
                                 (block_timestamp c.1) c.2 0) calls.
Proof.
  induction calls as [|[env p] calls IH]; intros st Hact Hmax Hnd Hall Hroom.
  - exists st. simpl. split; [done|]. split; [|done].
    rewrite N.add_0_r. by destruct (getTask st i).
  - simpl in *. apply NoDup_cons in Hnd as [Hnotin Hnd].
    apply Forall_cons in Hall as [[Hwin Hnew] Hall].
    destruct (completeTask_succeeds st env i p Hact Hwin) as [st1 H1];
      [lia|done|done|].
    rewrite H1. simpl.
    destruct (completeTask_post _ _ _ _ _ H1) as (Hme & Hothers & Htask).
    destruct (IH st1) as (st' & Hrun & Htask' & Hframe & Hrec).
    + by rewrite Htask.
    + by rewrite Htask.
    + done.
    + rewrite Htask. simpl. apply Forall_forall. intros c Hc.
      rewrite Forall_forall in Hall. destruct (Hall c Hc) as [? Hnew'].
      split; [done|]. rewrite Hothers; [done|].
      intros Heq. apply Hnotin. rewrite <- Heq.
      by apply (list_elem_of_fmap_2 (λ c : Env * string, msg_sender c.1)).
    + rewrite Htask. simpl. lia.
    + exists st'. split; [done|]. split; [|split].
      * rewrite Htask', Htask. simpl. f_equal. lia.
      * intros u Hu. apply not_elem_of_cons in Hu as [Hu1 Hu2].
        rewrite Hframe by done. by apply Hothers.
      * apply Forall_cons. split; [|done]. simpl.
        rewrite Hframe by done. done.
Qed.

Lemma exec_Ok st env c st' : call st env c = Ok st' → exec st (env, c) = st'.
Proof. unfold exec; simpl. by intros ->. Qed.

(** *** verifyTaskCompletion: accepted whenever the credit fits *)

Lemma verifyTaskCompletion_succeeds st env i u v s :
  msg_sender env = verificationOracle st →
  completed (getCompletion st i u) = true →
  (v = true → sybilThreshold (getTask st i) <= s →
   getUserTotalEarnings st u + rewardAmount (getTask st i) <= uint256_max) →
  ∃ st', verifyTaskCompletion st env i u v s = Ok st'.
Proof.
  intros Hsender Hrec Hfits.
  unfold verifyTaskCompletion, _triggerPayout, checked_add. rewrite Hrec.
  change (getTask (with_taskCompletions st ?m) i) with (getTask st i).
  change (getUserTotalEarnings (with_taskCompletions st ?m) u)
    with (getUserTotalEarnings st u).
  destruct v; repeat case_bool_decide; simpl; eauto; try done.
  exfalso; auto.
Qed.

(** What an accepted verdict leaves in place for the next one. *)
Lemma verifyTaskCompletion_keeps st env i u v s st' :
  verifyTaskCompletion st env i u v s = Ok st' →
  verificationOracle st' = verificationOracle st ∧
  getTask st' i = getTask st i ∧
  completed (getCompletion st' i u) = true.
Proof.
  intros H. pose proof H as H'.
  apply verifyTaskCompletion_Ok in H' as (_ & Hrec & _ & Htasks & Hcompl & _).
  split; [|split].
  - unfold verifyTaskCompletion in H. inv_Ok H. injection H as <-. simpl.
    match goal with H : (if _ then _ else _) = Ok _ |- _ =>
      destruct (_ && _) in H; [unfold _triggerPayout in H; inv_Ok H|];
        injection H as <- end; done.
  - by apply getTask_eq.
  - rewrite (getCompletion_step _ _ _ _ _ _ Hcompl). by rewrite decide_True.
Qed.

(** The same qualifying verdict delivered [n] times is paid [n] times. *)
Lemma repeated_verdict_paid_each_time env i u s n : ∀ st,
  msg_sender env = verificationOracle st →
  completed (getCompletion st i u) = true →
  sybilThreshold (getTask st i) <= s →
  getUserTotalEarnings st u + N.of_nat n * rewardAmount (getTask st i) <= uint256_max →
  getUserTotalEarnings
    (run st (replicate n (env, VerifyTaskCompletion i u true s))) u
  = getUserTotalEarnings st u + N.of_nat n * rewardAmount (getTask st i).
Proof.
  induction n as [|n IH]; intros st Hsender Hrec Hthr Hfits; [simpl; lia|].
  destruct (verifyTaskCompletion_succeeds st env i u true s Hsender Hrec)
    as [st' H]; [intros _ _; lia|].
  change (replicate (S n) ?x) with (x :: replicate n x).
  change (run st (?x :: ?l)) with (run (exec st x) l).
  rewrite (exec_Ok st env (VerifyTaskCompletion i u true s) st' H).
  destruct (verifyTaskCompletion_keeps _ _ _ _ _ _ _ H) as (Ho & Ht & Hc).
  apply verifyTaskCompletion_Ok in H as (_ & _ & _ & _ & _ & Hearn & _).
  rewrite bool_decide_eq_true_2 in Hearn by done. simpl in Hearn.
  rewrite IH; rewrite ?Ht, ?Ho, ?Hearn; try done; lia.
Qed.

(** The freshly created task is open, empty and untouched by anyone. *)
Lemma createTask_fresh st env n d cat r tok m dur crit kyc thr st' tid :
  reachable st →
  createTask st env n d cat r tok m dur crit kyc thr = Ok (st', tid) →
  getTask st' tid = mkTask tid (msg_sender env) n d cat ACTIVE r tok m 0
                      (block_timestamp env) (block_timestamp env + dur) crit kyc thr ∧
  0 < m ∧
  ∀ u, completed (getCompletion st' tid u) = false.
Proof.
  intros Hreach H.
  pose proof (createTask_tasks _ _ _ _ _ _ _ _ _ _ _ _ _ _ H) as (-> & _ & Hcompl & Htasks).
  split; [|split].
  - rewrite (getTask_step _ _ _ _ _ Htasks). by rewrite decide_True.
  - unfold createTask in H. inv_Ok H.
    repeat match goal with H : bool_decide _ = true |- _ =>
      apply bool_decide_eq_true in H end. done.
  - intros u. rewrite (getCompletion_eq _ _ _ _ Hcompl).
    destruct (reachable_capacity_inv _ Hreach (nextTaskId st)) as [_ Hfresh].
    by apply Hfresh.
Qed.

(** [createTask], then as many distinct participants as the cap allows: all
    of them get in, and whoever comes next finds the task full. *)
Lemma createTask_then_fill st env n d cat r tok m dur crit kyc thr st1 tid calls :
  reachable st →
  createTask st env n d cat r tok m dur crit kyc thr = Ok (st1, tid) →
  m <= uint256_max →
  NoDup ((λ c : Env * string, msg_sender c.1) <$> calls) →
  Forall (λ c : Env * string,
            block_timestamp env <= block_timestamp c.1 <= block_timestamp env + dur)
         calls →
  N.of_nat (length calls) = m →
  ∃ st2, completeTask_all st1 tid calls = Ok st2 ∧
    ∀ env' p',
      block_timestamp env <= block_timestamp env' <= block_timestamp env + dur →
      completeTask st2 env' tid p' = Revert (Error "Task is full").
Proof.
  intros Hreach Hcreate Hm Hnd Hwin Hlen.
  destruct (createTask_fresh _ _ _ _ _ _ _ _ _ _ _ _ _ _ Hreach Hcreate)
    as (Htask & _ & Hnone).
  destruct (completeTask_all_fills tid calls st1) as (st2 & Hrun & Htask2 & _).
  - by rewrite Htask.
  - by rewrite Htask.
  - done.
  - rewrite Htask; simpl. eapply Forall_impl; [exact Hwin|].
    intros c Hc. split; [done|apply Hnone].
  - rewrite Htask; simpl. lia.
  - exists st2. split; [done|]. intros env' p' Hwin'.
    apply completeTask_full; rewrite Htask2, Htask; simpl; (done || lia).
Qed.

End TaskRegistryFacts.

(** ** Claims about the task registry *)

Module TaskRegistryClaims.
Import TaskRegistry TaskRegistryFacts Scenario.

Lemma genesis_reachable : reachable genesis.
Proof. by apply (reachable_init (mkEnv admin 1000) oracle splitter). Qed.

(** C1 (as the code has it): for a pair with an existing completion, a
    verdict the oracle delivers through [verifyTaskCompletion] is accepted
    whenever the credit it may cause fits in a uint256, and it then credits
    the task's reward to the participant exactly when [_verified] is true
    and the score reaches the task's threshold; otherwise the earnings stay
    as they were.  The completion, the oracle and the task stay in place,
    so the same holds for the next delivery: no latch limits the credit to
    one.  The only qualifying verdict that is not paid is one whose credit
    would take the earnings above 2^256 - 1: that call reverts with the
    arithmetic panic and changes nothing. *)
Theorem verifyTaskCompletion_credits_each_call st env i u v s :
  msg_sender env = verificationOracle st →
  completed (getCompletion st i u) = true →
  ((v = true → sybilThreshold (getTask st i) <= s →
    getUserTotalEarnings st u + rewardAmount (getTask st i) <= uint256_max) →
   ∃ st', verifyTaskCompletion st env i u v s = Ok st' ∧
     getUserTotalEarnings st' u =
       getUserTotalEarnings st u +
       (if v && bool_decide (sybilThreshold (getTask st i) <= s)
        then rewardAmount (getTask st i) else 0) ∧
     completed (getCompletion st' i u) = true ∧
     verificationOracle st' = verificationOracle st ∧
     getTask st' i = getTask st i) ∧
  (v = true → sybilThreshold (getTask st i) <= s →
   uint256_max < getUserTotalEarnings st u + rewardAmount (getTask st i) →
   verifyTaskCompletion st env i u v s = Revert (Panic 17)).
Proof.
  intros Hsender Hrec. split.
  - intros Hfits.
    destruct (verifyTaskCompletion_succeeds st env i u v s Hsender Hrec Hfits)
      as [st' H].
    exists st'. split; [done|].
    destruct (verifyTaskCompletion_keeps _ _ _ _ _ _ _ H) as (Ho & Ht & Hc).
    apply verifyTaskCompletion_Ok in H as (_ & _ & _ & _ & _ & Hearn & _).
    by repeat split.
  - intros -> Hthr Hover.
    unfold verifyTaskCompletion, _triggerPayout, checked_add. rewrite Hrec.
    change (getTask (with_taskCompletions st ?m) i) with (getTask st i).
    change (getUserTotalEarnings (with_taskCompletions st ?m) u)
      with (getUserTotalEarnings st u).
    repeat case_bool_decide; simpl; try done; lia.
Qed.

Lemma verifyTaskCompletion_credits_each_call_witness :
  msg_sender (verdict true 80).1 = verificationOracle pending ∧
  ∃ st', verifyTaskCompletion pending (verdict true 80).1 1 alice true 80 = Ok st' ∧
         getUserTotalEarnings st' alice = 100.
Proof.
  split; [reflexivity|].
  destruct (verifyTaskCompletion_credits_each_call pending (verdict true 80).1
              1 alice true 80) as [Hpaid _].
  - reflexivity.
  - reflexivity.
  - destruct Hpaid as (st' & H & Hearn & _).
    + intros _ _. vm_compute. discriminate.
    + exists st'. split; [exact H|]. rewrite Hearn. reflexivity.
Defined.

(** The one qualifying verdict that is not paid: with a reward of
    2^256 - 1 the first verdict is paid and the second overflows. *)
Example qualifying_verdict_that_overflows_reverts :
  let st := run genesis
              [ (mkEnv admin 1000, AddSupportedToken usdc);
                (mkEnv admin 1000,
                 CreateTask "swap" "swap once" SWAP uint256_max usdc 1 3600 "{}" false 50);
                (mkEnv alice 1010, CompleteTask 1 "0xproof");
                verdict true 80 ] in
  getUserTotalEarnings st alice = uint256_max ∧
  verifyTaskCompletion st (mkEnv oracle 1030) 1 alice true 80 = Revert (Panic 17).
Proof. split; vm_compute; reflexivity. Qed.

(** C1 as stated fails: the same qualifying verdict delivered twice is paid
    twice. *)
Lemma duplicate_verdict_pays_twice :
  getUserTotalEarnings pending alice = 0 ∧
  getUserTotalEarnings (run pending [verdict true 80]) alice = 100 ∧
  getUserTotalEarnings (run pending [verdict true 80; verdict true 80]) alice = 200.
Proof. repeat split; vm_compute; reflexivity. Qed.

(** C7 (as the code has it): the capacity check comes before the
    duplicate check.  For a task that is Active and within its time window
    in a reachable state, [completeTask] reverts with "Task is full"
    exactly when the participant count equals the cap, whether or not the
    caller has a completion on record; with room left it reverts with
    "Task already completed by user" when the caller has a completion on
    record, and else it succeeds, records the completion with
    verified = false and raises the count by one.  Hence as many distinct
    newcomers as there are free places all succeed, and after them every
    further caller is turned away with "Task is full". *)
Theorem completeTask_capacity st env i p :
  reachable st →
  status (getTask st i) = ACTIVE →
  startTime (getTask st i) <= block_timestamp env <= endTime (getTask st i) →
  maxParticipants (getTask st i) <= uint256_max →
  (completeTask st env i p = Revert (Error "Task is full") ↔
   currentParticipants (getTask st i) = maxParticipants (getTask st i)) ∧
  (currentParticipants (getTask st i) ≠ maxParticipants (getTask st i) →
   completed (getCompletion st i (msg_sender env)) = true →
   completeTask st env i p = Revert (Error "Task already completed by user")) ∧
  (currentParticipants (getTask st i) ≠ maxParticipants (getTask st i) →
   completed (getCompletion st i (msg_sender env)) = false →
   ∃ st', completeTask st env i p = Ok st' ∧
     getCompletion st' i (msg_sender env) =
       mkTaskCompletion (msg_sender env) i true false (block_timestamp env) p 0 ∧
     currentParticipants (getTask st' i) = currentParticipants (getTask st i) + 1) ∧
  (∀ calls : list (Env * string),
     NoDup ((λ c : Env * string, msg_sender c.1) <$> calls) →
     Forall (λ c : Env * string,
        (startTime (getTask st i) <= block_timestamp c.1 <= endTime (getTask st i)) ∧
        completed (getCompletion st i (msg_sender c.1)) = false) calls →
     currentParticipants (getTask st i) + N.of_nat (length calls)
       = maxParticipants (getTask st i) →
     ∃ st', completeTask_all st i calls = Ok st' ∧
       Forall (λ c : Env * string,
          getCompletion st' i (msg_sender c.1) =
            mkTaskCompletion (msg_sender c.1) i true false
                             (block_timestamp c.1) c.2 0) calls ∧
       currentParticipants (getTask st' i) = maxParticipants (getTask st' i) ∧
       ∀ env' p',
         startTime (getTask st i) <= block_timestamp env' <= endTime (getTask st i) →
         completeTask st' env' i p' = Revert (Error "Task is full")).
Proof.
  intros Hreach Hact Hwin Hmax.
  destruct (reachable_capacity_inv _ Hreach i) as [Hle _].
  split; [|split; [|split]].
  - split.
    + intros H.
      destruct (decide (currentParticipants (getTask st i)
                        = maxParticipants (getTask st i))) as [|Hne]; [done|].
      destruct (completed (getCompletion st i (msg_sender env))) eqn:Hc.
      * rewrite completeTask_duplicate in H by (done || lia). done.
      * destruct (completeTask_succeeds st env i p Hact Hwin) as [st' H'];
          [lia|done|done|]. congruence.
    + intros Heq. apply completeTask_full; [done|done|lia].
  - intros Hne Hdup. apply completeTask_duplicate; [done|done|lia|done].
  - intros Hne Hnew.
    destruct (completeTask_succeeds st env i p Hact Hwin) as [st' H'];
      [lia|done|done|].
    exists st'. split; [done|].
    destruct (completeTask_post _ _ _ _ _ H') as (Hme & _ & Htask).
    split; [done|]. by rewrite Htask.
  - intros calls Hnd Hall Hlen.
    destruct (completeTask_all_fills i calls st Hact Hmax Hnd Hall)
      as (st' & Hrun & Htask & _ & Hrec); [lia|].
    exists st'. split; [done|]. split; [done|].
    rewrite Htask. simpl. split; [done|].
    intros env' p' Hwin'. apply completeTask_full.
    + by rewrite Htask.
    + by rewrite Htask.
    + rewrite Htask. simpl. lia.
Qed.

Lemma created_reachable : reachable created.
Proof. apply reachable_run, genesis_reachable. Qed.

Lemma completeTask_capacity_witness :
  reachable created ∧
  status (getTask created 1) = ACTIVE ∧
  (∃ st', completeTask_all created 1 [(mkEnv alice 1010, "0xproof")] = Ok st' ∧
          ∀ p', completeTask st' (mkEnv bob 1011) 1 p' = Revert (Error "Task is full")).
Proof.
  split; [exact created_reachable|]. split; [reflexivity|].
  destruct (completeTask_capacity created (mkEnv alice 1010) 1 "0xproof")
    as (_ & _ & _ & Hfill).
  - exact created_reachable.
  - reflexivity.
  - vm_compute. split; discriminate.
  - vm_compute. discriminate.
  - destruct (Hfill [(mkEnv alice 1010, "0xproof")]) as (st' & Hrun & _ & _ & Hfull).
    + apply NoDup_singleton.
    + apply Forall_singleton. split; [vm_compute; split; discriminate|reflexivity].
    + reflexivity.
    + exists st'. split; [exact Hrun|]. intros p'. apply Hfull.
      vm_compute. split; discriminate.
Defined.

(** C7 as stated fails: task 1 has room for one participant and Alice has
    her completion on record; her second submission is not answered with
    the duplicate error but with "Task is full". *)
Lemma resubmission_to_full_task_is_task_full :
  status (getTask pending 1) = ACTIVE ∧
  currentParticipants (getTask pending 1) = maxParticipants (getTask pending 1) ∧
  completed (getCompletion pending 1 alice) = true ∧
  completeTask pending (mkEnv alice 1011) 1 "0xproof" = Revert (Error "Task is full") ∧
  completeTask pending (mkEnv alice 1011) 1 "0xproof"
    ≠ Revert (Error "Task already completed by user").
Proof. repeat split; vm_compute; (reflexivity || discriminate). Qed.

(** C8 (as the code has it): the status of an existing task is written by
    [updateTaskStatus] alone.  Every other successful call leaves it as it
    was; [updateTaskStatus], called by the owner, stores whatever status
    it is given without consulting the current one, so it succeeds from
    every status, the terminal ones included. *)
Theorem status_written_by_updateTaskStatus_only st i :
  i < nextTaskId st →
  (∀ env c st', call st env c = Ok st' →
     status (getTask st' i) =
       match c with
       | UpdateTaskStatus j s => if decide (i = j) then s else status (getTask st i)
       | _ => status (getTask st i)
       end) ∧
  (∀ env s, msg_sender env = owner st →
     ∃ st', updateTaskStatus st env i s = Ok st' ∧ status (getTask st' i) = s).
Proof.
  intros Hlt. split.
  - intros env c st' H. call_cases H.
    5-9: by rewrite (getTask_eq _ _ _ Htasks).
    + (* createTask writes the slot of a fresh id *)
      rewrite (getTask_step _ _ _ _ _ Htasks). rewrite decide_False by lia. done.
    + (* completeTask touches the participant count alone *)
      rewrite (getTask_step _ _ _ _ _ Htasks). by destruct (decide _) as [->|].
    + by rewrite (getTask_eq _ _ _ Htasks).
    + rewrite (getTask_step _ _ _ _ _ Htasks). by destruct (decide _).
  - intros env s Hown.
    assert (∃ st', updateTaskStatus st env i s = Ok st') as [st' H].
    { unfold updateTaskStatus, onlyOwner.
      repeat case_bool_decide; simpl; eauto; done. }
    exists st'. split; [done|].
    apply updateTaskStatus_Ok in H as (_ & _ & _ & Htasks & _).
    rewrite (getTask_step _ _ _ _ _ Htasks). by rewrite decide_True.
Qed.

Lemma status_written_by_updateTaskStatus_only_witness :
  1 < nextTaskId closed ∧
  status (getTask closed 1) = COMPLETED ∧
  ∃ st', updateTaskStatus closed (mkEnv admin 1200) 1 ACTIVE = Ok st' ∧
         status (getTask st' 1) = ACTIVE.
Proof.
  split; [reflexivity|]. split; [reflexivity|].
  destruct (status_written_by_updateTaskStatus_only closed 1) as [_ Hset].
  - reflexivity.
  - apply (Hset (mkEnv admin 1200) ACTIVE). reflexivity.
Defined.

(** C8 as stated fails: a Completed task is reopened, and a Cancelled one
    is moved on to Paused, by plain status updates. *)
Lemma terminal_status_is_overwritten :
  status (getTask closed 1) = COMPLETED ∧
  status (getTask (run closed [(mkEnv admin 1200, UpdateTaskStatus 1 ACTIVE)]) 1)
    = ACTIVE ∧
  status (getTask (run created [(mkEnv admin 1200, UpdateTaskStatus 1 CANCELLED)]) 1)
    = CANCELLED ∧
  status (getTask (run created [(mkEnv admin 1200, UpdateTaskStatus 1 CANCELLED);
                                (mkEnv admin 1300, UpdateTaskStatus 1 PAUSED)]) 1)
    = PAUSED.
Proof. repeat split; vm_compute; reflexivity. Qed.




End TaskRegistryClaims.

(** ** Claims about the payout splitter *)

Module PayoutSplitterFacts.
Import PayoutSplitter.

Lemma _calculateDistribution_Ok r d :
  _calculateDistribution r = Ok d →
  r * TASK_COMPLETER_PERCENT <= uint256_max ∧
  d = mkPayoutDistribution (r * TASK_COMPLETER_PERCENT / 10000)
                           (r * DIRECT_REFERRER_PERCENT / 10000)
                           (r * INDIRECT_REFERRER_PERCENT / 10000)
                           (r * PLATFORM_FEE_PERCENT / 10000).
Proof.
  intros H. unfold _calculateDistribution in H.
  apply bind_Ok in H as (c & [-> Hc]%checked_mul_Ok & H).
  apply bind_Ok in H as (? & [-> _]%checked_mul_Ok & H).
  apply bind_Ok in H as (? & [-> _]%checked_mul_Ok & H).
  apply bind_Ok in H as (? & [-> _]%checked_mul_Ok & H).
  by injection H as <-.
Qed.

Lemma _calculateDistribution_total r :
  r * TASK_COMPLETER_PERCENT <= uint256_max →
  _calculateDistribution r =
    Ok (mkPayoutDistribution (r * TASK_COMPLETER_PERCENT / 10000)
                             (r * DIRECT_REFERRER_PERCENT / 10000)
                             (r * INDIRECT_REFERRER_PERCENT / 10000)
                             (r * PLATFORM_FEE_PERCENT / 10000)).
Proof.
  unfold _calculateDistribution, checked_mul, TASK_COMPLETER_PERCENT,
    DIRECT_REFERRER_PERCENT, INDIRECT_REFERRER_PERCENT, PLATFORM_FEE_PERCENT.
  intros H. repeat case_bool_decide; simpl; try done; lia.
Qed.

(** A floored quotient by 10000 loses less than one unit. *)
Lemma floor_bounds (a : N) : 10000 * (a / 10000) <= a ∧ a < 10000 * (a / 10000 + 1).
Proof.
  split.
  - apply N.Div0.mul_div_le.
  - rewrite N.add_1_r. by apply N.mul_succ_div_gt.
Qed.

(** *** The token ledger *)

Lemma transfer_Ok tok from to v tok' :
  ERC20.transfer tok from to v = Ok tok' →
  ERC20.transfers tok' = (from, to, v) :: ERC20.transfers tok.
Proof.
  unfold ERC20.transfer. case_bool_decide; [|done]. by intros [= <-].
Qed.

Lemma total_value_app l1 l2 :
  ERC20.total_value (l1 ++ l2) = ERC20.total_value l1 + ERC20.total_value l2.
Proof.
  induction l1 as [|e l1 IH]; simpl; [done|].
  change (foldr (λ e acc, e.2 + acc) 0 (l1 ++ l2)) with (ERC20.total_value (l1 ++ l2)).
  change (foldr (λ e acc, e.2 + acc) 0 l1) with (ERC20.total_value l1).
  rewrite IH. lia.
Qed.

Lemma total_value_equal_shares (self amount : N) (l : list address) :
  ERC20.total_value (reverse ((λ a, (self, a, amount)) <$> l))
  = amount * N.of_nat (length l).
Proof.
  induction l as [|a l IH]; [simpl; lia|].
  rewrite fmap_cons, reverse_cons, total_value_app, IH. simpl. lia.
Qed.

(** *** Earnings updates keep the referral chains *)

Lemma same_chains_refl st : same_chains st st.
Proof. by split. Qed.

Lemma same_chains_trans st1 st2 st3 :
  same_chains st1 st2 → same_chains st2 st3 → same_chains st1 st3.
Proof.
  intros [Hp H] [Hp' H']. split; [congruence|].
  intros u. destruct (H u), (H' u). split; congruence.
Qed.

Lemma getReferralData_insert st u w r :
  getReferralData (with_referrals st (<[w := r]> (referrals st))) u =
  if decide (u = w) then r else getReferralData st u.
Proof.
  unfold getReferralData; simpl. destruct (decide (u = w)) as [->|Hne].
  - by rewrite lookup_insert_eq.
  - by rewrite lookup_insert_ne.
Qed.

Lemma add_totalEarnings_chains st u a st' :
  add_totalEarnings st u a = Ok st' → same_chains st st'.
Proof.
  unfold add_totalEarnings. intros H. inv_Ok H. injection H as <-.
  split; [done|]. intros w.
  rewrite !getReferralData_insert. by destruct (decide (w = u)) as [->|].
Qed.

Lemma add_directEarnings_chains st u a st' :
  add_directEarnings st u a = Ok st' → same_chains st st'.
Proof.
  unfold add_directEarnings. intros H. inv_Ok H. injection H as <-.
  split; [done|]. intros w.
  rewrite !getReferralData_insert. by destruct (decide (w = u)) as [->|].
Qed.

Lemma add_indirectEarnings_chains st u a st' :
  add_indirectEarnings st u a = Ok st' → same_chains st st'.
Proof.
  unfold add_indirectEarnings. intros H. inv_Ok H. injection H as <-.
  split; [done|]. intros w.
  rewrite !getReferralData_insert. by destruct (decide (w = u)) as [->|].
Qed.

(** *** The loop over the indirect referrers *)

Lemma pay_indirectReferrers_Ok self amount l : ∀ st tok st' tok',
  pay_indirectReferrers self amount l st tok = Ok (st', tok') →
  same_chains st st' ∧
  ERC20.transfers tok' =
    reverse ((λ a, (self, a, amount)) <$> present l) ++ ERC20.transfers tok.
Proof.
  induction l as [|a l IH]; intros st tok st' tok' H; simpl in H.
  - injection H as <- <-. split; [apply same_chains_refl|done].
  - unfold present. case_bool_decide as Ha.
    + apply bind_Ok in H as (tok1 & Htr%transfer_Ok & H).
      apply bind_Ok in H as (st1 & H1%add_totalEarnings_chains & H).
      apply bind_Ok in H as (st2 & H2%add_indirectEarnings_chains & H).
      apply IH in H as [Hch Hlog]. split.
      * eauto using same_chains_trans.
      * rewrite Hlog, Htr. rewrite filter_cons_True by done.
        rewrite fmap_cons, reverse_cons, <- app_assoc. reflexivity.
    + apply IH in H as [Hch Hlog]. split; [done|].
      rewrite filter_cons_False by (intros Hn; by apply Hn). exact Hlog.
Qed.

(** *** One settlement *)

Lemma distributePayout_Ok self st tok env c tid r token st' tok' :
  distributePayout self st tok env c tid r token = Ok (st', tok') →
  msg_sender env = taskRegistry st ∧
  isSupportedToken st token = true ∧
  0 < r <= ERC20.balanceOf tok self ∧
  ∃ d, _calculateDistribution r = Ok d ∧
    ERC20.transfers tok' =
      payout_transfers self (platformWallet st) c (getReferralData st c) d
      ++ ERC20.transfers tok.
Proof.
  intros H. unfold distributePayout in H.
  apply bind_Ok in H as (? & Hreg%require_Ok%bool_decide_eq_true & H).
  apply bind_Ok in H as (? & Htok%require_Ok & H).
  apply bind_Ok in H as (? & Hpos%require_Ok%bool_decide_eq_true & H).
  apply bind_Ok in H as (? & Hbal%require_Ok%bool_decide_eq_true & H).
  apply bind_Ok in H as (d & Hd & H).
  apply bind_Ok in H as ([st1 tok1] & Hc & H).
  apply bind_Ok in H as ([st2 tok2] & Hdir & H).
  apply bind_Ok in H as ([st3 tok3] & Hind & H).
  apply bind_Ok in H as (tok4 & Hfee & H).
  apply bind_Ok in H as (ra & _ & H).
  injection H as <- <-.
  repeat split; try done.
  exists d. split; [done|]. unfold payout_transfers.
  (* task completer *)
  assert (same_chains st st1 ∧
          ERC20.transfers tok1 =
            (if bool_decide (0 < taskCompleterReward d)
             then [(self, c, taskCompleterReward d)] else [])
            ++ ERC20.transfers tok) as [Hch1 Hlog1].
  { destruct (bool_decide (0 < taskCompleterReward d)).
    - apply bind_Ok in Hc as (t & Ht%transfer_Ok & Hc).
      apply bind_Ok in Hc as (s1 & Hs%add_totalEarnings_chains & Hc).
      injection Hc as <- <-. done.
    - injection Hc as <- <-. split; [apply same_chains_refl|done]. }
  (* direct referrer *)
  destruct Hch1 as [Hpw1 Hch1]. destruct (Hch1 c) as [Hdr1 Hir1].
  rewrite Hdr1 in Hdir.
  assert (same_chains st1 st2 ∧
          ERC20.transfers tok2 =
            (if bool_decide (directReferrer (getReferralData st c) ≠ 0)
                && bool_decide (0 < directReferrerReward d)
             then [(self, directReferrer (getReferralData st c),
                    directReferrerReward d)] else [])
            ++ ERC20.transfers tok1) as [Hch2 Hlog2].
  { destruct (_ && _).
    - apply bind_Ok in Hdir as (t & Ht%transfer_Ok & Hdir).
      apply bind_Ok in Hdir as (s1 & Hs1%add_totalEarnings_chains & Hdir).
      apply bind_Ok in Hdir as (s2 & Hs2%add_directEarnings_chains & Hdir).
      injection Hdir as <- <-. split; [|done]. eauto using same_chains_trans.
    - injection Hdir as <- <-. split; [apply same_chains_refl|done]. }
  (* indirect referrers *)
  destruct Hch2 as [Hpw2 Hch2]. destruct (Hch2 c) as [Hdr2 Hir2].
  rewrite Hir2, Hir1 in Hind.
  assert (same_chains st2 st3 ∧
          ERC20.transfers tok3 =
            (if bool_decide (0 < indirectReferrerReward d)
             then reverse ((λ a, (self, a, indirectReferrerReward d / MAX_REFERRAL_LEVELS))
                             <$> present (indirectReferrers (getReferralData st c)))
             else [])
            ++ ERC20.transfers tok2) as [Hch3 Hlog3].
  { destruct (bool_decide (0 < indirectReferrerReward d)).
    - by apply pay_indirectReferrers_Ok in Hind.
    - injection Hind as <- <-. split; [apply same_chains_refl|done]. }
  (* platform fee *)
  destruct Hch3 as [Hpw3 _].
  rewrite Hpw3, Hpw2, Hpw1 in Hfee.
  assert (ERC20.transfers tok4 =
            (if bool_decide (0 < platformFee d)
             then [(self, platformWallet st, platformFee d)] else [])
            ++ ERC20.transfers tok3) as Hlog4.
  { destruct (bool_decide (0 < platformFee d)).
    - by apply transfer_Ok in Hfee.
    - by injection Hfee as <-. }
  rewrite Hlog4, Hlog3, Hlog2, Hlog1. by rewrite <- !app_assoc.
Qed.

(** The value one settlement moves out of the splitter. *)
Lemma payout_transfers_value self platform c ref d :
  ERC20.total_value (payout_transfers self platform c ref d) =
    taskCompleterReward d
    + (if bool_decide (directReferrer ref ≠ 0) then directReferrerReward d else 0)
    + indirectReferrerReward d / MAX_REFERRAL_LEVELS
      * N.of_nat (length (present (indirectReferrers ref)))
    + platformFee d.
Proof.
  unfold payout_transfers. rewrite !total_value_app.
  assert (ERC20.total_value
            (if bool_decide (0 < indirectReferrerReward d)
             then reverse ((λ a, (self, a, indirectReferrerReward d / MAX_REFERRAL_LEVELS))
                             <$> present (indirectReferrers ref))
             else [])
          = indirectReferrerReward d / MAX_REFERRAL_LEVELS
            * N.of_nat (length (present (indirectReferrers ref)))) as ->.
  { case_bool_decide as Hpos.
    - apply total_value_equal_shares.
    - assert (indirectReferrerReward d = 0) as -> by lia.
      change (0 / MAX_REFERRAL_LEVELS) with 0. simpl. lia. }
  repeat case_bool_decide; simpl; unfold ERC20.total_value; simpl; lia.
Qed.

End PayoutSplitterFacts.

Module PayoutSplitterClaims.
Import PayoutSplitter PayoutSplitterFacts SplitterScenario.

(** C3 is contradicted by the constants: the four weights add up to 11000
    basis points (110%), not to the 10000 the contract itself takes for
    100%. *)
Theorem distribution_weights_sum :
  TASK_COMPLETER_PERCENT + DIRECT_REFERRER_PERCENT
  + INDIRECT_REFERRER_PERCENT + PLATFORM_FEE_PERCENT = 11000.
Proof. reflexivity. Qed.

(** C2 (as the code has it): every share is the floored quotient of the
    gross amount times its own weight by 10000.  The division remainders
    are dropped, none is assigned to a bucket, so the four shares add up
    to at most gross * (sum of the weights) / 10000 and fall short of it
    by less than four units. *)
Theorem shares_are_floored_quotients r :
  r * TASK_COMPLETER_PERCENT <= uint256_max →
  ∃ d, _calculateDistribution r = Ok d ∧
    taskCompleterReward d = r * TASK_COMPLETER_PERCENT / 10000 ∧
    directReferrerReward d = r * DIRECT_REFERRER_PERCENT / 10000 ∧
    indirectReferrerReward d = r * INDIRECT_REFERRER_PERCENT / 10000 ∧
    platformFee d = r * PLATFORM_FEE_PERCENT / 10000 ∧
    10000 * total_shares d
      <= r * (TASK_COMPLETER_PERCENT + DIRECT_REFERRER_PERCENT
              + INDIRECT_REFERRER_PERCENT + PLATFORM_FEE_PERCENT) ∧
    r * (TASK_COMPLETER_PERCENT + DIRECT_REFERRER_PERCENT
         + INDIRECT_REFERRER_PERCENT + PLATFORM_FEE_PERCENT)
      < 10000 * (total_shares d + 4).
Proof.
  intros Hfits. eexists. split; [by apply _calculateDistribution_total|].
  unfold total_shares; simpl. repeat split; try done.
  - pose proof (floor_bounds (r * TASK_COMPLETER_PERCENT)).
    pose proof (floor_bounds (r * DIRECT_REFERRER_PERCENT)).
    pose proof (floor_bounds (r * INDIRECT_REFERRER_PERCENT)).
    pose proof (floor_bounds (r * PLATFORM_FEE_PERCENT)). lia.
  - pose proof (floor_bounds (r * TASK_COMPLETER_PERCENT)).
    pose proof (floor_bounds (r * DIRECT_REFERRER_PERCENT)).
    pose proof (floor_bounds (r * INDIRECT_REFERRER_PERCENT)).
    pose proof (floor_bounds (r * PLATFORM_FEE_PERCENT)). lia.
Qed.

Lemma shares_are_floored_quotients_witness :
  199 * TASK_COMPLETER_PERCENT <= uint256_max ∧
  ∃ d, _calculateDistribution 199 = Ok d ∧ taskCompleterReward d = 119.
Proof.
  assert (199 * TASK_COMPLETER_PERCENT <= uint256_max) as Hfits
    by (vm_compute; discriminate).
  split; [exact Hfits|].
  destruct (shares_are_floored_quotients 199 Hfits) as (d & Hd & Hc & _).
  exists d. split; [exact Hd|]. rewrite Hc. reflexivity.
Defined.

(** C2 as stated fails: of a gross amount of 1 unit every share is 0, so
    the shares add up to 0 and the unit is in no bucket. *)
Lemma shares_of_one_unit_vanish :
  _calculateDistribution 1 = Ok (mkPayoutDistribution 0 0 0 0) ∧
  total_shares (mkPayoutDistribution 0 0 0 0) ≠ 1.
Proof. split; [reflexivity|]. vm_compute. discriminate. Qed.

(** The slip behind C3 seen on a settlement: the shares of 10000 units
    add up to 11000. *)
Example shares_of_10000_units :
  _calculateDistribution 10000 = Ok (mkPayoutDistribution 6000 2500 1500 1000) ∧
  total_shares (mkPayoutDistribution 6000 2500 1500 1000) = 11000.
Proof. split; reflexivity. Qed.

(** C6 (as the code has it): a settlement that goes through makes these
    transfers and no other: the task completer's share; the direct
    referrer's share if a direct referrer is set; to each indirect referrer
    that is set, the indirect share divided by the fixed number of levels
    (3); and the platform fee to the platform wallet.  Nothing is
    transferred for a tier that is not set, to the platform wallet or to
    anyone, so the value disbursed is the sum of the shares of the
    recipients that exist. *)
Theorem settlement_pays_present_tiers_only self st tok env c tid r token st' tok' :
  distributePayout self st tok env c tid r token = Ok (st', tok') →
  ∃ d, _calculateDistribution r = Ok d ∧
    ERC20.transfers tok' =
      payout_transfers self (platformWallet st) c (getReferralData st c) d
      ++ ERC20.transfers tok ∧
    ERC20.total_value (ERC20.transfers tok') =
      ERC20.total_value (ERC20.transfers tok)
      + (taskCompleterReward d
         + (if bool_decide (directReferrer (getReferralData st c) ≠ 0)
            then directReferrerReward d else 0)
         + indirectReferrerReward d / MAX_REFERRAL_LEVELS
           * N.of_nat (length (present (indirectReferrers (getReferralData st c))))
         + platformFee d).
Proof.
  intros H. apply distributePayout_Ok in H as (_ & _ & _ & d & Hd & Hlog).
  exists d. split; [done|]. split; [done|].
  rewrite Hlog, total_value_app, payout_transfers_value. lia.
Qed.

Lemma settlement_pays_present_tiers_only_witness :
  settle_alice = Ok settled ∧
  ERC20.total_value (ERC20.transfers settled.2) = 70.
Proof.
  assert (settle_alice = Ok (settled.1, settled.2)) as H by (vm_compute; reflexivity).
  split; [vm_compute; reflexivity|].
  destruct (settlement_pays_present_tiers_only _ _ _ _ _ _ _ _ _ _ H)
    as (d & Hd & _ & Hval).
  rewrite Hval. vm_compute in Hd. injection Hd as <-. reflexivity.
Defined.

(** C6 as stated fails: Alice has no referrer, and of the 100 units of
    her task only 70 leave the splitter: 60 to her and the platform fee of
    10 to the platform wallet.  The 25 and 15 units of the absent tiers go
    to nobody; they stay in the splitter's balance. *)
Lemma absent_tiers_are_withheld :
  settle_alice = Ok settled ∧
  ERC20.transfers settled.2 = [(splitter, treasury, 10); (splitter, alice, 60)] ∧
  ERC20.total_value (ERC20.transfers settled.2) = 70 ∧
  ERC20.balanceOf settled.2 treasury = 10 ∧
  ERC20.balanceOf settled.2 alice = 60 ∧
  ERC20.balanceOf settled.2 splitter = 30.
Proof. repeat split; vm_compute; reflexivity. Qed.

End PayoutSplitterClaims.

(** ** Claims about the verifier gateway *)

Module VerifierGatewayFacts.
Import VerifierGateway.

Section completeVerification.
Variables (st : State) (env : Env) (rid : N) (v : bool) (s : N) (h : string).

Lemma completeVerification_unauthorized :
  isAuthorizedOracle st (msg_sender env) = false →
  completeVerification st env rid v s h =
    Revert (Error "Only authorized oracles can complete verification").
Proof. intros H. unfold completeVerification. by rewrite H. Qed.

Hypothesis Hauth : isAuthorizedOracle st (msg_sender env) = true.

Lemma completeVerification_invalid_id :
  nextRequestId st <= rid →
  completeVerification st env rid v s h = Revert (Error "Invalid request ID").
Proof using Hauth.
  intros H. unfold completeVerification. rewrite Hauth.
  repeat case_bool_decide; simpl; try done; lia.
Qed.

Lemma completeVerification_processed :
  rid < nextRequestId st →
  processed (getVerificationRequest st rid) = true →
  completeVerification st env rid v s h = Revert (Error "Request already processed").
Proof using Hauth.
  intros H Hp. unfold completeVerification. rewrite Hauth, Hp.
  repeat case_bool_decide; simpl; try done; lia.
Qed.

Lemma completeVerification_score :
  rid < nextRequestId st →
  processed (getVerificationRequest st rid) = false →
  100 < s →
  completeVerification st env rid v s h = Revert (Error "Invalid sybil score").
Proof using Hauth.
  intros H Hp Hs. unfold completeVerification. rewrite Hauth, Hp.
  repeat case_bool_decide; simpl; try done; lia.
Qed.

Lemma completeVerification_succeeds :
  rid < nextRequestId st →
  processed (getVerificationRequest st rid) = false →
  s <= 100 →
  getOracleNonce st (msg_sender env) < uint256_max →
  ∃ st', completeVerification st env rid v s h = Ok st' ∧
    processed (getVerificationRequest st' rid) = true ∧
    result_ (getVerificationRequest st' rid) =
      mkVerificationResult v s h (block_timestamp env) (msg_sender env) ∧
    getOracleNonce st' (msg_sender env) = getOracleNonce st (msg_sender env) + 1.
Proof using Hauth.
  intros H Hp Hs Hn. unfold completeVerification, checked_add. rewrite Hauth, Hp.
  change (getOracleNonce (with_verificationRequests st ?m) ?a)
    with (getOracleNonce st a).
  repeat case_bool_decide; simpl; try done; try lia.
  eexists. split; [done|].
  unfold getVerificationRequest, getOracleNonce; simpl.
  rewrite !lookup_insert_eq. done.
Qed.
End completeVerification.

Lemma completeVerification_Ok st env rid v s h st' :
  completeVerification st env rid v s h = Ok st' →
  isAuthorizedOracle st (msg_sender env) = true ∧
  rid < nextRequestId st ∧
  processed (getVerificationRequest st rid) = false ∧
  s <= 100.
Proof.
  intros H. unfold completeVerification in H. inv_Ok H.
  repeat match goal with
         | H : bool_decide _ = true |- _ => apply bool_decide_eq_true in H
         | H : _ && _ = true |- _ => apply andb_true_iff in H as [? ?]
         | H : negb _ = true |- _ => apply negb_true_iff in H
         end.
  done.
Qed.

(** A score above 100 is turned down whoever delivers it and whatever the
    request. *)
Lemma completeVerification_rejects_high_score st env rid v s h :
  100 < s → is_ok (completeVerification st env rid v s h) = false.
Proof.
  intros Hs. destruct (completeVerification st env rid v s h) as [st'|e] eqn:E; [|done].
  apply completeVerification_Ok in E as (_ & _ & _ & ?). lia.
Qed.

(** A delivery that reverts changes nothing; this covers a second delivery
    for a processed request. *)
Lemma processed_request_delivery_is_noop st env rid v s h :
  isAuthorizedOracle st (msg_sender env) = true →
  rid < nextRequestId st →
  processed (getVerificationRequest st rid) = true →
  call st env (CompleteVerification rid v s h) = Revert (Error "Request already processed") ∧
  exec st (env, CompleteVerification rid v s h) = st.
Proof.
  intros Hauth Hlt Hp. unfold exec; simpl.
  rewrite completeVerification_processed by done. done.
Qed.

End VerifierGatewayFacts.

Module VerifierGatewayClaims.
Import VerifierGateway VerifierGatewayFacts GatewayScenario.

(** C4 (as the code has it): [completeVerification] goes through only for
    a caller flagged in the table of authorized oracles, and every other
    caller is rejected with the authorization error.  The category of the
    request plays no part: for a caller with the flag the delivery of a
    score up to 100 for an allocated, unprocessed request succeeds,
    whichever category that caller was registered for. *)
Theorem completeVerification_needs_authorized_oracle st env rid v s h :
  (isAuthorizedOracle st (msg_sender env) = false →
   completeVerification st env rid v s h =
     Revert (Error "Only authorized oracles can complete verification")) ∧
  (∀ st', completeVerification st env rid v s h = Ok st' →
          isAuthorizedOracle st (msg_sender env) = true) ∧
  (isAuthorizedOracle st (msg_sender env) = true →
   rid < nextRequestId st →
   processed (getVerificationRequest st rid) = false →
   s <= 100 →
   getOracleNonce st (msg_sender env) < uint256_max →
   is_ok (completeVerification st env rid v s h) = true).
Proof.
  split; [|split].
  - apply completeVerification_unauthorized.
  - intros st' H. by apply completeVerification_Ok in H as (? & _).
  - intros Hauth Hlt Hp Hs Hn.
    destruct (completeVerification_succeeds st env rid v s h Hauth Hlt Hp Hs Hn)
      as (st' & -> & _). done.
Qed.

Lemma completeVerification_needs_authorized_oracle_witness :
  isAuthorizedOracle requested socialOracle = true ∧
  is_ok (completeVerification requested (mkEnv socialOracle 1020) 1 true 80 "0xdigest")
    = true.
Proof.
  split; [reflexivity|].
  apply (completeVerification_needs_authorized_oracle
           requested (mkEnv socialOracle 1020) 1 true 80 "0xdigest").
  - reflexivity.
  - reflexivity.
  - reflexivity.
  - vm_compute. discriminate.
  - reflexivity.
Defined.

(** C4 as stated fails: request 1 is of the on-chain category, whose
    registered verifier is [chainOracle]; the verdict delivered by
    [socialOracle], registered for another category, is accepted. *)
Lemma verdict_accepted_from_other_category :
  verificationType (getVerificationRequest requested 1) = ONCHAIN_TRANSACTION ∧
  oracleAddress requested ONCHAIN_TRANSACTION = chainOracle ∧
  socialOracle ≠ chainOracle ∧
  is_ok (completeVerification requested (mkEnv socialOracle 1020) 1 true 80 "0xdigest")
    = true.
Proof. repeat split; vm_compute; (reflexivity || discriminate). Qed.

(** C5 is contradicted by the code at request id 0.  Ids are issued from 1
    on, so id 0 is never allocated; yet the guard [_requestId <
    nextRequestId] lets it through, and a delivery for it succeeds: the
    empty slot 0 is marked processed and the verifier's nonce advances. *)
Theorem unallocated_request_zero_is_accepted :
  nextRequestId registered = 1 ∧
  verificationRequests registered = ∅ ∧
  ∃ st', completeVerification registered (mkEnv chainOracle 1020) 0 true 80 "0xdigest"
           = Ok st' ∧
         processed (getVerificationRequest st' 0) = true ∧
         getOracleNonce st' chainOracle = 1.
Proof.
  split; [reflexivity|]. split; [reflexivity|].
  eexists. split; [vm_compute; reflexivity|]. split; reflexivity.
Qed.

End VerifierGatewayClaims.

(** * Further properties of the contracts *)

(** ** The task registry *)

Module TaskRegistryMore.
Import TaskRegistry TaskRegistryFacts TaskRegistryViews.

(** What [completeTask] writes, the per-user list included. *)
Lemma completeTask_lists st env i p st' :
  completeTask st env i p = Ok st' →
  userCompletedTasks st' =
    <[msg_sender env := getUserCompletedTasks st (msg_sender env) ++ [i]]>
      (userCompletedTasks st).
Proof.
  intros H. unfold completeTask in H. inv_Ok H. by injection H as <-.
Qed.

Lemma other_calls_keep_lists st env c st' :
  (∀ i p, c ≠ CompleteTask i p) →
  call st env c = Ok st' → userCompletedTasks st' = userCompletedTasks st.
Proof.
  intros Hc H. destruct c; simpl in H.
  - apply bind_Ok in H as ([st1 tid] & H & [= <-]).
    unfold createTask in H. inv_Ok H. by injection H as <- <-.
  - by destruct (Hc _taskId _proofData).
  - unfold verifyTaskCompletion in H. inv_Ok H. injection H as <-. simpl.
    match goal with H : (if _ then _ else _) = Ok _ |- _ =>
      destruct (_ && _) in H; [unfold _triggerPayout in H; inv_Ok H|];
        injection H as <- end; done.
  - unfold updateTaskStatus in H. inv_Ok H. by injection H as <-.
  - unfold setVerificationOracle in H. inv_Ok H. by injection H as <-.
  - unfold setPayoutSplitter in H. inv_Ok H. by injection H as <-.
  - unfold addSupportedToken in H. inv_Ok H. by injection H as <-.
  - unfold transferOwnership in H. inv_Ok H.
    case_bool_decide; [done|]. by injection H as <-.
  - unfold renounceOwnership in H. inv_Ok H. by injection H as <-.
Qed.

(** *** Well-formed tasks *)

Lemma tasks_wf_init env o p st : constructor env o p = Ok st → tasks_wf st.
Proof.
  unfold constructor. case_bool_decide; [done|]. intros [= <-].
  split; simpl; [lia|]. intros i. unfold getTask; simpl.
  rewrite lookup_empty; simpl. lia.
Qed.

Lemma tasks_wf_call st env c st' :
  tasks_wf st → call st env c = Ok st' → tasks_wf st'.
Proof.
  intros [Hone Hwf] H. pose proof H as Hcall. call_cases H.
  5-9: (split; [lia|]); intros i; rewrite (getTask_eq _ _ _ Htasks), Hnext; apply Hwf.
  - (* createTask *)
    apply call_createTask_Ok in Hcall. unfold createTask in Hcall. inv_Ok Hcall.
    repeat match goal with
           | H : bool_decide _ = true |- _ => apply bool_decide_eq_true in H
           | H : _ ∧ _ |- _ => destruct H
           end.
    split; [lia|]. intros i. rewrite (getTask_step _ _ _ _ _ Htasks), Hnext.
    destruct (decide (i = nextTaskId st)) as [->|Hne]; simpl.
    + intros _. repeat split; try done; lia.
    + intros Hi. destruct (Hwf i Hi) as (? & ? & ? & ? & ?). repeat split; try done; lia.
  - (* completeTask *)
    split; [lia|]. intros i. rewrite (getTask_step _ _ _ _ _ Htasks), Hnext.
    destruct (decide (i = _taskId)) as [->|Hne]; simpl; apply Hwf.
  - split; [lia|]. intros i. rewrite (getTask_eq _ _ _ Htasks), Hnext. apply Hwf.
  - (* updateTaskStatus *)
    split; [lia|]. intros i. rewrite (getTask_step _ _ _ _ _ Htasks), Hnext.
    destruct (decide (i = _taskId)) as [->|Hne]; simpl; apply Hwf.
Qed.

Lemma reachable_tasks_wf st : reachable st → tasks_wf st.
Proof.
  induction 1 as [env o p st Hinit | st env c st' _ IH Hcall].
  - by eapply tasks_wf_init.
  - by eapply tasks_wf_call.
Qed.

Lemma scenario_created_reachable : reachable Scenario.created.
Proof.
  apply reachable_run.
  by apply (reachable_init (mkEnv Scenario.admin 1000) Scenario.oracle Scenario.splitter).
Qed.

Lemma scenario_pending_reachable : reachable Scenario.pending.
Proof. apply reachable_exec, scenario_created_reachable. Qed.

(** X1: every task open to participants, in every state the contract can
    reach, carries its own id (between 1 and the next id to be issued), a
    positive reward, a reward token other than the zero address, and an
    end time after its start time. *)
Theorem open_tasks_are_well_formed st i :
  reachable st →
  0 < maxParticipants (getTask st i) →
  1 <= i < nextTaskId st ∧
  id (getTask st i) = i ∧
  0 < rewardAmount (getTask st i) ∧
  rewardToken (getTask st i) ≠ 0 ∧
  startTime (getTask st i) < endTime (getTask st i).
Proof.
  intros Hreach. destruct (reachable_tasks_wf st Hreach) as [_ Hwf]. apply Hwf.
Qed.

Lemma open_tasks_are_well_formed_witness :
  reachable Scenario.created ∧
  startTime (getTask Scenario.created 1) < endTime (getTask Scenario.created 1).
Proof.
  split; [exact scenario_created_reachable|].
  apply (open_tasks_are_well_formed Scenario.created 1 scenario_created_reachable).
  reflexivity.
Defined.

(** X2: an id that was never issued (0, or one from the next id on) cannot
    be completed: [completeTask] reverts for it at any time, by any caller. *)
Theorem unissued_task_cannot_be_completed st env i p :
  reachable st →
  i = 0 ∨ nextTaskId st <= i →
  is_ok (completeTask st env i p) = false.
Proof.
  intros Hreach Hi.
  destruct (completeTask st env i p) as [st'|e] eqn:E; [|done].
  apply completeTask_Ok in E as (_ & _ & Hroom & _).
  destruct (reachable_tasks_wf st Hreach) as [_ Hwf].
  destruct (Hwf i) as ([? ?] & _); lia.
Qed.

Lemma unissued_task_cannot_be_completed_witness :
  reachable Scenario.created ∧
  is_ok (completeTask Scenario.created (mkEnv Scenario.alice 0) 0 "0xproof") = false.
Proof.
  split; [exact scenario_created_reachable|].
  apply (unissued_task_cannot_be_completed Scenario.created _ 0 _
           scenario_created_reachable).
  left; reflexivity.
Defined.

(** *** The books agree *)

Lemma participants_empty st i : taskCompletions st = ∅ → participants st i = ∅.
Proof.
  unfold participants. intros ->. rewrite dom_empty_L.
  apply set_eq. intros k. rewrite elem_of_filter.
  split; [intros [_ H]|intros H]; by apply elem_of_empty in H.
Qed.

Lemma participants_eq st st' i :
  dom (taskCompletions st') = dom (taskCompletions st) →
  participants st' i = participants st i.
Proof. unfold participants. by intros ->. Qed.

Lemma participants_insert st st' i j u c :
  taskCompletions st !! (j, u) = None →
  taskCompletions st' = <[(j, u) := c]> (taskCompletions st) →
  size (participants st' i) =
    (if decide (i = j) then S (size (participants st i)) else size (participants st i)).
Proof.
  intros Hnew Heq. unfold participants. rewrite Heq, dom_insert_L, filter_union_L;
    [destruct (decide (i = j)) as [->|Hne]|].
  - assert (filter (λ k : N * address, k.1 = j) ({[(j, u)]} : gset (N * address))
            = {[(j, u)]}) as ->
      by (apply filter_singleton_True_L; [apply _|reflexivity]).
    rewrite size_union, size_singleton; [done|].
    apply disjoint_singleton_l. intros [_ Hin]%elem_of_filter.
    apply elem_of_dom in Hin as [? Hin]. congruence.
  - assert (filter (λ k : N * address, k.1 = i) ({[(j, u)]} : gset (N * address))
            = ∅) as ->
      by (apply filter_singleton_False_L; [apply _|simpl; congruence]).
    by rewrite (left_id_L ∅ (∪)).
  - apply _.
Qed.

Lemma books_agree_init env o p st : constructor env o p = Ok st → books_agree st.
Proof.
  unfold constructor. case_bool_decide; [done|]. intros [= <-].
  split; [|split].
  - intros k c. simpl. by rewrite lookup_empty.
  - intros i. rewrite participants_empty by done.
    unfold getTask; simpl. by rewrite lookup_empty.
  - intros u. unfold getUserCompletedTasks; simpl. rewrite lookup_empty; simpl.
    split; [constructor|]. intros i. rewrite lookup_empty. split.
    + by intros ?%elem_of_nil.
    + by intros [? ?].
Qed.

Lemma books_agree_call st env c st' :
  capacity_inv st → books_agree st → call st env c = Ok st' → books_agree st'.
Proof.
  intros Hcap (Hrec & Hcount & Hlist) H.
  assert ((∃ i p, c = CompleteTask i p) ∨ ¬ (∃ i p, c = CompleteTask i p))
    as [(i0 & p0 & ->)|Hother].
  { destruct c; try (right; by intros (? & ? & ?)). left; eauto. }
  - (* completeTask *)
    simpl in H. pose proof (completeTask_lists _ _ _ _ _ H) as Hl.
    apply completeTask_Ok in H
      as (_ & _ & _ & Hnew & _ & Htasks & Hcompl & _).
    assert (taskCompletions st !! (i0, msg_sender env) = None) as Hnone.
    { destruct (taskCompletions st !! (i0, msg_sender env)) as [c|] eqn:E; [|done].
      destruct (Hrec _ _ E) as (Hc & _). unfold getCompletion in Hnew.
      rewrite E in Hnew. simpl in Hnew. congruence. }
    split; [|split].
    + intros k c. rewrite Hcompl. destruct (decide (k = (i0, msg_sender env))) as [->|Hne].
      * rewrite lookup_insert_eq. by intros [= <-].
      * rewrite lookup_insert_ne by done. apply Hrec.
    + intros i. rewrite (participants_insert st st' i i0 _ _ Hnone Hcompl).
      rewrite (getTask_step _ _ _ _ _ Htasks).
      destruct (decide (i = i0)) as [->|Hne]; simpl; [|apply Hcount].
      rewrite <- Hcount. lia.
    + intros u. unfold getUserCompletedTasks. rewrite Hl, Hcompl.
      destruct (decide (u = msg_sender env)) as [->|Hne].
      * rewrite lookup_insert_eq. simpl.
        destruct (Hlist (msg_sender env)) as [Hnd Hin]. split.
        -- apply NoDup_app. split; [done|]. split; [|apply NoDup_singleton].
           intros x Hx ->%list_elem_of_singleton.
           apply Hin in Hx as [? Hx]. congruence.
        -- intros i. rewrite elem_of_app, list_elem_of_singleton, Hin.
           destruct (decide (i = i0)) as [->|Hne].
           ++ rewrite lookup_insert_eq. split; [eauto|intros _; by right].
           ++ rewrite lookup_insert_ne by congruence. split; [|by left].
              intros [?|?]; [done|congruence].
      * rewrite lookup_insert_ne by done.
        destruct (Hlist u) as [Hnd Hin]. split; [done|].
        intros i. rewrite lookup_insert_ne by congruence. apply Hin.
  - (* every other call *)
    assert (userCompletedTasks st' = userCompletedTasks st) as Hl.
    { eapply other_calls_keep_lists; [|done]. intros i p ->. apply Hother. eauto. }
    assert (dom (taskCompletions st') = dom (taskCompletions st) ∧
            (∀ k c, taskCompletions st' !! k = Some c →
                    completed c = true ∧ user c = k.2 ∧ taskId c = k.1) ∧
            ∀ i, currentParticipants (getTask st' i) = currentParticipants (getTask st i))
      as (Hdom & Hrec' & Hcur).
    { call_cases H.
      5-9: rewrite Hcompl; (split; [done|]); (split; [done|]);
           intros i; by rewrite (getTask_eq _ _ _ Htasks).
      - rewrite Hcompl. split; [done|]. split; [done|]. intros i.
        rewrite (getTask_step _ _ _ _ _ Htasks).
        destruct (decide _) as [->|]; [|done]. simpl.
        destruct (Hcap (nextTaskId st)) as [Hle Hfresh].
        destruct Hfresh as [H0 _]; [done|]. lia.
      - exfalso. apply Hother. eauto.
      - (* verifyTaskCompletion rewrites an existing entry *)
        assert (is_Some (taskCompletions st !! (_taskId, _user))) as [c0 Hc0].
        { unfold getCompletion in Hdone.
          destruct (taskCompletions st !! (_taskId, _user)); [eauto|done]. }
        split; [|split].
        + rewrite Hcompl. apply dom_insert_lookup_L. eauto.
        + intros k c. rewrite Hcompl.
          destruct (decide (k = (_taskId, _user))) as [->|Hne].
          * rewrite lookup_insert_eq. intros [= <-]. unfold getCompletion.
            rewrite Hc0. simpl. apply (Hrec _ _ Hc0).
          * rewrite lookup_insert_ne by done. apply Hrec.
        + intros i. by rewrite (getTask_eq _ _ _ Htasks).
      - rewrite Hcompl. split; [done|]. split; [done|]. intros i.
        rewrite (getTask_step _ _ _ _ _ Htasks). by destruct (decide _) as [->|]. }
    split; [done|]. split.
    + intros i. rewrite (participants_eq _ _ _ Hdom), Hcur. apply Hcount.
    + intros u. unfold getUserCompletedTasks. rewrite Hl.
      destruct (Hlist u) as [Hnd Hin]. split; [done|]. intros i.
      rewrite Hin. rewrite <- !elem_of_dom, Hdom. done.
Qed.

Lemma reachable_books_agree st : reachable st → books_agree st.
Proof.
  induction 1 as [env o p st Hinit | st env c st' Hreach IH Hcall].
  - by eapply books_agree_init.
  - eapply books_agree_call; [|done|done]. by apply reachable_capacity_inv.
Qed.

(** X3: in every reachable state the participant count of a task is the
    number of (task, user) pairs with a completion on record for it. *)
Theorem participant_count_counts_completions st i :
  reachable st →
  currentParticipants (getTask st i) = N.of_nat (size (participants st i)).
Proof.
  intros Hreach. destruct (reachable_books_agree st Hreach) as (_ & Hcount & _).
  by rewrite Hcount.
Qed.

Lemma participant_count_counts_completions_witness :
  reachable Scenario.pending ∧
  N.of_nat (size (participants Scenario.pending 1)) = 1.
Proof.
  split; [exact scenario_pending_reachable|].
  rewrite <- (participant_count_counts_completions Scenario.pending 1
                scenario_pending_reachable).
  reflexivity.
Defined.

(** X4: in every reachable state a user's list of completed tasks holds
    exactly the tasks the user has a completion for, each of them once. *)
Theorem completed_list_matches_completions st u :
  reachable st →
  NoDup (getUserCompletedTasks st u) ∧
  ∀ i, i ∈ getUserCompletedTasks st u ↔ completed (getCompletion st i u) = true.
Proof.
  intros Hreach. destruct (reachable_books_agree st Hreach) as (Hrec & _ & Hlist).
  destruct (Hlist u) as [Hnd Hin]. split; [done|]. intros i. rewrite Hin.
  unfold getCompletion. destruct (taskCompletions st !! (i, u)) as [c|] eqn:E; simpl.
  - destruct (Hrec _ _ E) as (-> & _). split; eauto.
  - split; [by intros [? ?]|done].
Qed.

Lemma completed_list_matches_completions_witness :
  reachable Scenario.pending ∧
  1 ∈ getUserCompletedTasks Scenario.pending Scenario.alice.
Proof.
  split; [exact scenario_pending_reachable|].
  apply (completed_list_matches_completions Scenario.pending Scenario.alice
           scenario_pending_reachable).
  reflexivity.
Defined.

(** *** What a call can and cannot change *)

(** X5: the terms of an issued task (id, advertiser, texts, category,
    reward, token, cap, window, KYC flag, threshold) are fixed: no
    successful call changes them. *)
Theorem task_terms_are_fixed st env c st' i :
  call st env c = Ok st' →
  i < nextTaskId st →
  terms (getTask st' i) = terms (getTask st i).
Proof.
  intros H Hlt. call_cases H.
  5-9: by rewrite (getTask_eq _ _ _ Htasks).
  - rewrite (getTask_step _ _ _ _ _ Htasks). rewrite decide_False by lia. done.
  - rewrite (getTask_step _ _ _ _ _ Htasks). by destruct (decide _) as [->|].
  - by rewrite (getTask_eq _ _ _ Htasks).
  - rewrite (getTask_step _ _ _ _ _ Htasks). by destruct (decide _) as [->|].
Qed.

Lemma task_terms_are_fixed_witness :
  1 < nextTaskId Scenario.created ∧
  rewardAmount (getTask Scenario.pending 1) = rewardAmount (getTask Scenario.created 1).
Proof.
  split; [reflexivity|].
  pose proof (task_terms_are_fixed Scenario.created (mkEnv Scenario.alice 1010)
                (CompleteTask 1 "0xproof") Scenario.pending 1 eq_refl eq_refl) as H.
  exact (f_equal (λ t, t.1.1.1.1.1.1.1.2) H).
Defined.

(** X6: a completion on record keeps its user, task, time and proof: no
    successful call replaces what was submitted. *)
Theorem submission_is_fixed st env c st' i u :
  call st env c = Ok st' →
  completed (getCompletion st i u) = true →
  submission (getCompletion st' i u) = submission (getCompletion st i u).
Proof.
  intros H Hrec. call_cases H.
  4-9: by rewrite (getCompletion_eq _ _ _ _ Hcompl).
  - by rewrite (getCompletion_eq _ _ _ _ Hcompl).
  - rewrite (getCompletion_step _ _ _ _ _ _ Hcompl).
    destruct (decide _) as [[= -> ->]|]; [|done]. congruence.
  - rewrite (getCompletion_step _ _ _ _ _ _ Hcompl).
    destruct (decide _) as [[= -> ->]|]; done.
Qed.

Lemma submission_is_fixed_witness :
  completed (getCompletion Scenario.pending 1 Scenario.alice) = true ∧
  proofData (getCompletion (exec Scenario.pending (Scenario.verdict true 80))
                           1 Scenario.alice) = "0xproof".
Proof.
  split; [reflexivity|].
  pose proof (submission_is_fixed Scenario.pending (Scenario.verdict true 80).1
                (Scenario.verdict true 80).2
                (exec Scenario.pending (Scenario.verdict true 80))
                1 Scenario.alice eq_refl eq_refl) as H.
  exact (eq_trans (f_equal snd H) eq_refl).
Defined.

(** X7: recorded earnings move only through verdicts and only upwards: a
    successful call adds the task's reward to the earnings of the user a
    qualifying verdict names, and leaves every other user's earnings, and
    everybody's on any other call, as they were. *)
Theorem earnings_move_only_by_verdicts st env c st' u :
  call st env c = Ok st' →
  getUserTotalEarnings st' u =
    getUserTotalEarnings st u +
    match c with
    | VerifyTaskCompletion i w v s =>
        if decide (w = u)
        then (if v && bool_decide (sybilThreshold (getTask st i) <= s)
              then rewardAmount (getTask st i) else 0)
        else 0
    | _ => 0
    end.
Proof.
  intros H. pose proof H as Hcall. call_cases H.
  5-9: unfold getUserTotalEarnings; rewrite Hearn; lia.
  - apply call_createTask_Ok in Hcall. unfold createTask in Hcall. inv_Ok Hcall.
    injection Hcall as <-. unfold getUserTotalEarnings; simpl. lia.
  - unfold getUserTotalEarnings; rewrite Hearn; lia.
  - destruct (decide (_user = u)) as [->|Hne]; [done|].
    rewrite Hearn' by done. lia.
  - unfold getUserTotalEarnings; rewrite Hearn; lia.
Qed.

Lemma earnings_move_only_by_verdicts_witness :
  call Scenario.pending (Scenario.verdict true 80).1 (Scenario.verdict true 80).2
    = Ok (exec Scenario.pending (Scenario.verdict true 80)) ∧
  getUserTotalEarnings (exec Scenario.pending (Scenario.verdict true 80)) Scenario.alice
    = 100.
Proof.
  split; [reflexivity|].
  rewrite (earnings_move_only_by_verdicts Scenario.pending (Scenario.verdict true 80).1
             (Scenario.verdict true 80).2
             (exec Scenario.pending (Scenario.verdict true 80)) Scenario.alice eq_refl).
  reflexivity.
Defined.

(** X8: a caller who is neither the owner nor the verification oracle can
    do one thing only, complete a task: every other call of theirs
    reverts. *)
Theorem outsider_can_only_completeTask st env c st' :
  msg_sender env ≠ owner st →
  msg_sender env ≠ verificationOracle st →
  call st env c = Ok st' →
  ∃ i p, c = CompleteTask i p.
Proof.
  intros Hown Horc H. destruct c; simpl in H; [|by eauto|..]; exfalso.
  - apply bind_Ok in H as ([st1 tid] & H & _). unfold createTask in H. inv_Ok H.
    match goal with H : onlyOwner _ _ = Ok _ |- _ => apply onlyOwner_Ok in H end. done.
  - apply verifyTaskCompletion_Ok in H as (? & _). done.
  - apply updateTaskStatus_Ok in H as (? & _). done.
  - unfold setVerificationOracle in H. inv_Ok H.
    match goal with H : onlyOwner _ _ = Ok _ |- _ => apply onlyOwner_Ok in H end. done.
  - unfold setPayoutSplitter in H. inv_Ok H.
    match goal with H : onlyOwner _ _ = Ok _ |- _ => apply onlyOwner_Ok in H end. done.
  - unfold addSupportedToken in H. inv_Ok H.
    match goal with H : onlyOwner _ _ = Ok _ |- _ => apply onlyOwner_Ok in H end. done.
  - unfold transferOwnership in H. inv_Ok H.
    match goal with H : onlyOwner _ _ = Ok _ |- _ => apply onlyOwner_Ok in H end. done.
  - unfold renounceOwnership in H. inv_Ok H.
    match goal with H : onlyOwner _ _ = Ok _ |- _ => apply onlyOwner_Ok in H end. done.
Qed.

Lemma outsider_can_only_completeTask_witness :
  msg_sender (mkEnv Scenario.alice 1010) ≠ owner Scenario.created ∧
  ∃ i p, CompleteTask 1 "0xproof" = CompleteTask i p.
Proof.
  split; [vm_compute; discriminate|].
  apply (outsider_can_only_completeTask Scenario.created (mkEnv Scenario.alice 1010)
           (CompleteTask 1 "0xproof") Scenario.pending).
  - vm_compute; discriminate.
  - vm_compute; discriminate.
  - reflexivity.
Defined.

(** X9: pausing and resuming an Active task is a round trip.  While it is
    paused every completion is turned away with "Task is not active";
    after the owner sets it back to Active the task and all completions
    are exactly what they were before the pause. *)
Theorem pause_then_resume_restores_task st env1 env2 i :
  msg_sender env1 = owner st →
  msg_sender env2 = owner st →
  i < nextTaskId st →
  status (getTask st i) = ACTIVE →
  ∃ st1 st2,
    updateTaskStatus st env1 i PAUSED = Ok st1 ∧
    (∀ env p, completeTask st1 env i p = Revert (Error "Task is not active")) ∧
    updateTaskStatus st1 env2 i ACTIVE = Ok st2 ∧
    (∀ j, getTask st2 j = getTask st j) ∧
    (∀ j u, getCompletion st2 j u = getCompletion st j u).
Proof.
  intros Ho1 Ho2 Hlt Hact.
  assert (∃ st1, updateTaskStatus st env1 i PAUSED = Ok st1) as [st1 H1].
  { unfold updateTaskStatus, onlyOwner. repeat case_bool_decide; simpl; eauto; done. }
  pose proof H1 as H1'.
  apply updateTaskStatus_Ok in H1' as (_ & _ & Hn1 & Ht1 & Hc1 & _).
  assert (owner st1 = owner st) as Hown.
  { unfold updateTaskStatus in H1. inv_Ok H1. by injection H1 as <-. }
  assert (∃ st2, updateTaskStatus st1 env2 i ACTIVE = Ok st2) as [st2 H2].
  { unfold updateTaskStatus, onlyOwner. rewrite Hown, Hn1.
    repeat case_bool_decide; simpl; eauto; done. }
  pose proof H2 as H2'.
  apply updateTaskStatus_Ok in H2' as (_ & _ & _ & Ht2 & Hc2 & _).
  exists st1, st2. repeat split; try done.
  - intros env p. unfold completeTask.
    rewrite (getTask_step _ _ _ _ _ Ht1), decide_True by done. done.
  - intros j. rewrite (getTask_step _ _ j _ _ Ht2).
    destruct (decide (j = i)) as [->|Hne].
    + rewrite (getTask_step _ _ i _ _ Ht1), decide_True by done.
      destruct (getTask st i); simpl in *. by subst.
    + rewrite (getTask_step _ _ j _ _ Ht1). by rewrite decide_False.
  - intros j u. by rewrite (getCompletion_eq _ _ _ _ Hc2), (getCompletion_eq _ _ _ _ Hc1).
Qed.

Lemma pause_then_resume_restores_task_witness :
  status (getTask Scenario.created 1) = ACTIVE ∧
  ∃ st1 st2,
    updateTaskStatus Scenario.created (mkEnv Scenario.admin 1100) 1 PAUSED = Ok st1 ∧
    updateTaskStatus st1 (mkEnv Scenario.admin 1200) 1 ACTIVE = Ok st2 ∧
    getTask st2 1 = getTask Scenario.created 1.
Proof.
  split; [reflexivity|].
  destruct (pause_then_resume_restores_task Scenario.created
              (mkEnv Scenario.admin 1100) (mkEnv Scenario.admin 1200) 1)
    as (st1 & st2 & H1 & _ & H2 & Ht & _); try reflexivity.
  exists st1, st2. split; [exact H1|]. split; [exact H2|]. apply Ht.
Defined.

(** *** The allow-list *)

(** X10: the token allow-list only grows, and the reward token of every
    task open to participants, in every reachable state, is on it. *)
Theorem reward_tokens_stay_supported st :
  reachable st →
  (∀ env c st' a, call st env c = Ok st' →
     isSupportedToken st a = true → isSupportedToken st' a = true) ∧
  (∀ i, 0 < maxParticipants (getTask st i) →
     isSupportedToken st (rewardToken (getTask st i)) = true).
Proof.
  assert (∀ st env c st' a, call st env c = Ok st' →
            isSupportedToken st a = true → isSupportedToken st' a = true) as Hmono.
  { clear st. intros st env c st' a H Ha. destruct c; simpl in H.
    - apply bind_Ok in H as ([st1 tid] & H & [= <-]).
      unfold createTask in H. inv_Ok H. by injection H as <- <-.
    - unfold completeTask in H. inv_Ok H. by injection H as <-.
    - unfold verifyTaskCompletion in H. inv_Ok H. injection H as <-.
      match goal with H : (if _ then _ else _) = Ok _ |- _ =>
        destruct (_ && _) in H; [unfold _triggerPayout in H; inv_Ok H|];
          injection H as <- end; done.
    - unfold updateTaskStatus in H. inv_Ok H. by injection H as <-.
    - unfold setVerificationOracle in H. inv_Ok H. by injection H as <-.
    - unfold setPayoutSplitter in H. inv_Ok H. by injection H as <-.
    - unfold addSupportedToken in H. inv_Ok H. injection H as <-.
      unfold isSupportedToken in *; simpl.
      destruct (decide (a = _token)) as [->|].
      + by rewrite lookup_insert_eq.
      + by rewrite lookup_insert_ne.
    - unfold transferOwnership in H. inv_Ok H.
      case_bool_decide; [done|]. by injection H as <-.
    - unfold renounceOwnership in H. inv_Ok H. by injection H as <-. }
  intros Hreach. split; [intros env c st' a; apply Hmono|].
  induction Hreach as [env o p st Hinit | st env c st' Hreach IH Hcall].
  - unfold constructor in Hinit. case_bool_decide; [done|]. injection Hinit as <-.
    intros i. unfold getTask; simpl. rewrite lookup_empty; simpl. lia.
  - intros i Hi. pose proof Hcall as H. call_cases H.
    5-9: rewrite (getTask_eq _ _ _ Htasks) in Hi |- *; eapply Hmono; eauto.
    + apply call_createTask_Ok in Hcall. unfold createTask in Hcall. inv_Ok Hcall.
      injection Hcall as <-.
      rewrite (getTask_step _ _ _ _ _ Htasks) in Hi |- *.
      destruct (decide (i = nextTaskId st)) as [->|]; simpl in *.
      * unfold isSupportedToken; simpl. done.
      * unfold isSupportedToken; simpl. by apply IH.
    + eapply Hmono; [exact Hcall|].
      rewrite (getTask_step _ _ _ _ _ Htasks) in Hi |- *.
      destruct (decide (i = _taskId)) as [->|]; simpl in *; by apply IH.
    + rewrite (getTask_eq _ _ _ Htasks) in Hi |- *. eapply Hmono; eauto.
    + eapply Hmono; [exact Hcall|].
      rewrite (getTask_step _ _ _ _ _ Htasks) in Hi |- *.
      destruct (decide (i = _taskId)) as [->|]; simpl in *; by apply IH.
Qed.

Lemma reward_tokens_stay_supported_witness :
  reachable Scenario.created ∧
  isSupportedToken Scenario.created (rewardToken (getTask Scenario.created 1)) = true.
Proof.
  split; [exact scenario_created_reachable|].
  apply (reward_tokens_stay_supported Scenario.created scenario_created_reachable).
  reflexivity.
Defined.

(** *** Issuing a task *)

(** X26: [createTask] goes through exactly when the caller is the owner,
    the reward, the cap and the duration are positive, the token is
    non-zero and on the allow-list, and neither the id counter nor the end
    time overflows.  It then returns the next id, stores under it an
    Active task with no participant and the window [now, now +
    duration], advances the counter by one and leaves every other task as
    it was. *)
Theorem createTask_issues_next_id st env n d cat r tok m dur crit kyc thr :
  (is_ok (createTask st env n d cat r tok m dur crit kyc thr) = true ↔
   owner st = msg_sender env ∧ 0 < r ∧ tok ≠ 0 ∧ isSupportedToken st tok = true ∧
   0 < m ∧ 0 < dur ∧ nextTaskId st + 1 <= uint256_max ∧
   block_timestamp env + dur <= uint256_max) ∧
  (∀ st' tid, createTask st env n d cat r tok m dur crit kyc thr = Ok (st', tid) →
     tid = nextTaskId st ∧
     nextTaskId st' = nextTaskId st + 1 ∧
     getTask st' tid = mkTask tid (msg_sender env) n d cat ACTIVE r tok m 0
                         (block_timestamp env) (block_timestamp env + dur)
                         crit kyc thr ∧
     ∀ j, j ≠ tid → getTask st' j = getTask st j).
Proof.
  split.
  - unfold createTask, onlyOwner, checked_add.
    destruct (isSupportedToken st tok);
      repeat case_bool_decide; simpl; split; try done; intros; try done;
      repeat match goal with H : _ ∧ _ |- _ => destruct H end; try done; lia.
  - intros st' tid H.
    apply createTask_tasks in H as (-> & Hn & _ & Htasks).
    repeat split; try done.
    + rewrite (getTask_step _ _ _ _ _ Htasks). by rewrite decide_True.
    + intros j Hj. rewrite (getTask_step _ _ _ _ _ Htasks). by rewrite decide_False.
Qed.

Lemma createTask_issues_next_id_witness :
  is_ok (createTask (exec Scenario.genesis
                          (mkEnv Scenario.admin 1000, AddSupportedToken Scenario.usdc))
                    (mkEnv Scenario.admin 1000) "swap" "swap once" SWAP 100
                    Scenario.usdc 1 3600 "{}" false 50) = true.
Proof.
  apply (createTask_issues_next_id
           (exec Scenario.genesis
                 (mkEnv Scenario.admin 1000, AddSupportedToken Scenario.usdc))).
  repeat split; vm_compute; (reflexivity || discriminate).
Defined.

End TaskRegistryMore.

(** ** The payout splitter *)

Module PayoutSplitterMore.
Import PayoutSplitter PayoutSplitterFacts PayoutSplitterAdmin.

Lemma onlyOwner_splitter_Ok st env u :
  onlyOwner st env = Ok u ↔ owner st = msg_sender env.
Proof. unfold onlyOwner. destruct u. case_bool_decide; split; done. Qed.

Lemma registerWithReferral_reverts st env code :
  registerWithReferral st env code =
    Revert (Error (if isRegistered st (msg_sender env)
                   then "User already registered" else "Invalid referral code")).
Proof.
  unfold registerWithReferral, _getAddressFromReferralCode.
  by destruct (isRegistered st (msg_sender env)).
Qed.

(** X11: registration with a referral code never succeeds and never
    changes the state.  The code lookup is a placeholder that resolves
    every code to the zero address, so a caller not yet registered is
    always told the code is invalid (and one already registered is refused
    as such), whatever the code and whoever the caller. *)
Theorem registerWithReferral_never_succeeds self st tok env code :
  call self st tok env (RegisterWithReferral code) =
    Revert (Error (if isRegistered st (msg_sender env)
                   then "User already registered" else "Invalid referral code")) ∧
  is_ok (registerWithReferral st env code) = false.
Proof.
  simpl. rewrite registerWithReferral_reverts. done.
Qed.

(** *** A settlement writes earnings only *)

Lemma earnings_only_refl st : earnings_only st st.
Proof. by repeat split. Qed.

Lemma earnings_only_trans st1 st2 st3 :
  earnings_only st1 st2 → earnings_only st2 st3 → earnings_only st1 st3.
Proof.
  intros (? & ? & ? & ? & ? & H) (? & ? & ? & ? & ? & H').
  repeat split; try congruence; destruct (H u) as (? & ? & ?), (H' u) as (? & ? & ?);
    congruence.
Qed.

Lemma add_totalEarnings_only st u a st' :
  add_totalEarnings st u a = Ok st' → earnings_only st st'.
Proof.
  unfold add_totalEarnings. intros H. inv_Ok H. injection H as <-.
  repeat split; try done; rewrite !getReferralData_insert;
    by destruct (decide (_ = u)) as [->|].
Qed.

Lemma add_directEarnings_only st u a st' :
  add_directEarnings st u a = Ok st' → earnings_only st st'.
Proof.
  unfold add_directEarnings. intros H. inv_Ok H. injection H as <-.
  repeat split; try done; rewrite !getReferralData_insert;
    by destruct (decide (_ = u)) as [->|].
Qed.

Lemma add_indirectEarnings_only st u a st' :
  add_indirectEarnings st u a = Ok st' → earnings_only st st'.
Proof.
  unfold add_indirectEarnings. intros H. inv_Ok H. injection H as <-.
  repeat split; try done; rewrite !getReferralData_insert;
    by destruct (decide (_ = u)) as [->|].
Qed.

Lemma pay_indirectReferrers_only self amount l : ∀ st tok st' tok',
  pay_indirectReferrers self amount l st tok = Ok (st', tok') → earnings_only st st'.
Proof.
  induction l as [|a l IH]; intros st tok st' tok' H; simpl in H.
  - injection H as <- <-. apply earnings_only_refl.
  - case_bool_decide.
    + apply bind_Ok in H as (tok1 & _ & H).
      apply bind_Ok in H as (st1 & H1%add_totalEarnings_only & H).
      apply bind_Ok in H as (st2 & H2%add_indirectEarnings_only & H).
      apply IH in H. eauto using earnings_only_trans.
    + by apply IH in H.
Qed.

Lemma distributePayout_earnings_only self st tok env c tid r token st' tok' :
  distributePayout self st tok env c tid r token = Ok (st', tok') →
  earnings_only st st'.
Proof.
  intros H. unfold distributePayout in H.
  apply bind_Ok in H as (? & _ & H). apply bind_Ok in H as (? & _ & H).
  apply bind_Ok in H as (? & _ & H). apply bind_Ok in H as (? & _ & H).
  apply bind_Ok in H as (d & _ & H).
  apply bind_Ok in H as ([st1 tok1] & Hc & H).
  apply bind_Ok in H as ([st2 tok2] & Hdir & H).
  apply bind_Ok in H as ([st3 tok3] & Hind & H).
  apply bind_Ok in H as (tok4 & _ & H).
  apply bind_Ok in H as (ra & _ & H).
  injection H as <- <-.
  assert (earnings_only st st1) as H1.
  { destruct (bool_decide (0 < taskCompleterReward d)).
    - apply bind_Ok in Hc as (t & _ & Hc).
      apply bind_Ok in Hc as (s1 & Hs%add_totalEarnings_only & Hc).
      by injection Hc as <- <-.
    - injection Hc as <- <-. apply earnings_only_refl. }
  assert (earnings_only st1 st2) as H2.
  { destruct (_ && _).
    - apply bind_Ok in Hdir as (t & _ & Hdir).
      apply bind_Ok in Hdir as (s1 & Hs1%add_totalEarnings_only & Hdir).
      apply bind_Ok in Hdir as (s2 & Hs2%add_directEarnings_only & Hdir).
      injection Hdir as <- <-. eauto using earnings_only_trans.
    - injection Hdir as <- <-. apply earnings_only_refl. }
  assert (earnings_only st2 st3) as H3.
  { destruct (bool_decide (0 < indirectReferrerReward d)).
    - by apply pay_indirectReferrers_only in Hind.
    - injection Hind as <- <-. apply earnings_only_refl. }
  eapply earnings_only_trans; [exact H1|].
  eapply earnings_only_trans; [exact H2|]. exact H3.
Qed.

(** X12: a settlement that goes through changes recorded earnings and the
    event log and nothing else: the registry address, the platform wallet,
    the token allow-list, the owner, the set of registered users and
    everybody's referral chain and active flag are as before. *)
Theorem settlement_writes_earnings_only self st tok env c tid r token st' tok' :
  distributePayout self st tok env c tid r token = Ok (st', tok') →
  earnings_only st st'.
Proof. apply distributePayout_earnings_only. Qed.

Lemma settlement_writes_earnings_only_witness :
  SplitterScenario.settle_alice = Ok SplitterScenario.settled ∧
  platformWallet SplitterScenario.settled.1 = SplitterScenario.treasury.
Proof.
  assert (SplitterScenario.settle_alice
          = Ok (SplitterScenario.settled.1, SplitterScenario.settled.2)) as H
    by (vm_compute; reflexivity).
  split; [vm_compute; reflexivity|].
  destruct (settlement_writes_earnings_only _ _ _ _ _ _ _ _ _ _ H)
    as (_ & _ & Hw & _).
  rewrite Hw. reflexivity.
Defined.

(** *** Reachable states have no referral chains *)

Lemma no_referrals_init env r w st : constructor env r w = Ok st → no_referrals st.
Proof.
  unfold constructor. case_bool_decide; [done|]. intros [= <-] u.
  unfold isRegistered, getReferralData; simpl. by rewrite !lookup_empty.
Qed.

Lemma no_referrals_call self st tok env c st' tok' :
  no_referrals st → call self st tok env c = Ok (st', tok') → no_referrals st'.
Proof.
  intros Hinv H. destruct c; simpl in H.
  - rewrite registerWithReferral_reverts in H. done.
  - apply distributePayout_earnings_only in H as (Hr & _ & _ & _ & _ & Hu).
    intros u. destruct (Hinv u) as (Hreg & Hd & Hi), (Hu u) as (Hd' & Hi' & _).
    split; [|split].
    + unfold isRegistered in *. by rewrite Hr.
    + by rewrite Hd'.
    + by rewrite Hi'.
  - apply bind_Ok in H as (st1 & H & [= <- <-]).
    unfold addSupportedToken in H. inv_Ok H. by injection H as <-.
  - apply bind_Ok in H as (st1 & H & [= <- <-]).
    unfold setPlatformWallet in H. inv_Ok H. by injection H as <-.
  - apply bind_Ok in H as (st1 & H & [= <- <-]).
    unfold setTaskRegistry in H. inv_Ok H. by injection H as <-.
  - apply bind_Ok in H as (t & _ & [= <- <-]). done.
  - apply bind_Ok in H as ([st1 ev] & H & [= <- <-]).
    unfold transferOwnership in H. inv_Ok H.
    case_bool_decide; [done|]. by injection H as <- <-.
  - apply bind_Ok in H as ([st1 ev] & H & [= <- <-]).
    unfold renounceOwnership in H. inv_Ok H. by injection H as <- <-.
Qed.

Lemma reachable_no_referrals self st : reachable self st → no_referrals st.
Proof.
  induction 1 as [env r w st Hinit | st tok env c st' tok' _ IH Hcall].
  - by eapply no_referrals_init.
  - by eapply no_referrals_call.
Qed.

Lemma scenario_deployed_reachable :
  reachable SplitterScenario.splitter SplitterScenario.deployed.
Proof.
  apply (reachable_call _ (mkState ∅ ∅ SplitterScenario.registry SplitterScenario.treasury
                                   ∅ SplitterScenario.admin [])
           SplitterScenario.funded (mkEnv SplitterScenario.admin 1000)
           (AddSupportedToken SplitterScenario.usdc) _ SplitterScenario.funded).
  - by apply (reachable_init _ (mkEnv SplitterScenario.admin 1000)
                SplitterScenario.registry SplitterScenario.treasury).
  - reflexivity.
Qed.

(** X13: in every state the splitter can reach nobody is registered and
    nobody has a direct or indirect referrer. *)
Theorem reachable_states_have_no_referrals self st u :
  reachable self st →
  isRegistered st u = false ∧
  directReferrer (getReferralData st u) = 0 ∧
  indirectReferrers (getReferralData st u) = [].
Proof. intros Hreach. by apply (reachable_no_referrals self). Qed.

Lemma reachable_states_have_no_referrals_witness :
  reachable SplitterScenario.splitter SplitterScenario.deployed ∧
  directReferrer (getReferralData SplitterScenario.deployed SplitterScenario.alice) = 0.
Proof.
  split; [exact scenario_deployed_reachable|].
  apply (reachable_states_have_no_referrals SplitterScenario.splitter
           SplitterScenario.deployed SplitterScenario.alice scenario_deployed_reachable).
Defined.

(** X14: hence a settlement in a reachable state pays two recipients at
    most, the task completer and the platform wallet, and what it
    disburses never exceeds the gross reward. *)
Theorem reachable_settlement_pays_completer_and_platform
    self st tok env c tid r token st' tok' :
  reachable self st →
  distributePayout self st tok env c tid r token = Ok (st', tok') →
  ∃ d, _calculateDistribution r = Ok d ∧
    ERC20.transfers tok' =
      (if bool_decide (0 < platformFee d)
       then [(self, platformWallet st, platformFee d)] else []) ++
      (if bool_decide (0 < taskCompleterReward d)
       then [(self, c, taskCompleterReward d)] else []) ++
      ERC20.transfers tok ∧
    ERC20.total_value (ERC20.transfers tok')
      = ERC20.total_value (ERC20.transfers tok) + taskCompleterReward d + platformFee d ∧
    taskCompleterReward d + platformFee d <= r.
Proof.
  intros Hreach H.
  destruct (reachable_no_referrals self st Hreach c) as (_ & Hdir & Hind).
  apply distributePayout_Ok in H as (_ & _ & _ & d & Hd & Hlog).
  exists d. split; [done|].
  assert (payout_transfers self (platformWallet st) c (getReferralData st c) d =
          (if bool_decide (0 < platformFee d)
           then [(self, platformWallet st, platformFee d)] else []) ++
          (if bool_decide (0 < taskCompleterReward d)
           then [(self, c, taskCompleterReward d)] else [])) as Hpay.
  { unfold payout_transfers, present. rewrite Hdir, Hind.
    rewrite (bool_decide_eq_false_2 (0 ≠ 0)) by (intros H; by apply H). simpl.
    by destruct (bool_decide (0 < indirectReferrerReward d)). }
  split; [by rewrite Hlog, Hpay, <- app_assoc|]. split.
  - rewrite Hlog, total_value_app, payout_transfers_value, Hdir, Hind.
    rewrite (bool_decide_eq_false_2 (0 ≠ 0)) by (intros H; by apply H). simpl. lia.
  - apply _calculateDistribution_Ok in Hd as [_ ->]. simpl.
    unfold TASK_COMPLETER_PERCENT, PLATFORM_FEE_PERCENT.
    pose proof (floor_bounds (r * 6000)). pose proof (floor_bounds (r * 1000)). lia.
Qed.

Lemma reachable_settlement_pays_completer_and_platform_witness :
  reachable SplitterScenario.splitter SplitterScenario.deployed ∧
  SplitterScenario.settle_alice = Ok SplitterScenario.settled ∧
  ERC20.total_value (ERC20.transfers SplitterScenario.settled.2) <= 100.
Proof.
  assert (SplitterScenario.settle_alice
          = Ok (SplitterScenario.settled.1, SplitterScenario.settled.2)) as H
    by (vm_compute; reflexivity).
  split; [exact scenario_deployed_reachable|]. split; [vm_compute; reflexivity|].
  destruct (reachable_settlement_pays_completer_and_platform _ _ _ _ _ _ _ _ _ _
              scenario_deployed_reachable H) as (d & _ & _ & Hval & Hle).
  rewrite Hval. exact Hle.
Defined.

(** X15: a caller who is neither the owner nor the task registry cannot
    make any call to the splitter succeed. *)
Theorem splitter_rejects_outsiders self st tok env c :
  msg_sender env ≠ owner st →
  msg_sender env ≠ taskRegistry st →
  is_ok (call self st tok env c) = false.
Proof.
  intros Hown Hreg.
  destruct (call self st tok env c) as [[st' tok']|e] eqn:H; [exfalso|done].
  destruct c; simpl in H.
  - rewrite registerWithReferral_reverts in H. done.
  - apply distributePayout_Ok in H as (? & _). done.
  - apply bind_Ok in H as (st1 & H & _). unfold addSupportedToken in H. inv_Ok H.
    match goal with H : onlyOwner _ _ = Ok _ |- _ => apply onlyOwner_splitter_Ok in H end.
    done.
  - apply bind_Ok in H as (st1 & H & _). unfold setPlatformWallet in H. inv_Ok H.
    match goal with H : onlyOwner _ _ = Ok _ |- _ => apply onlyOwner_splitter_Ok in H end.
    done.
  - apply bind_Ok in H as (st1 & H & _). unfold setTaskRegistry in H. inv_Ok H.
    match goal with H : onlyOwner _ _ = Ok _ |- _ => apply onlyOwner_splitter_Ok in H end.
    done.
  - apply bind_Ok in H as (t & H & _). unfold emergencyWithdraw in H.
    apply bind_Ok in H as (? & H%onlyOwner_splitter_Ok & _). done.
  - apply bind_Ok in H as ([st1 ev] & H & _). unfold transferOwnership in H.
    apply bind_Ok in H as (? & H%onlyOwner_splitter_Ok & _). done.
  - apply bind_Ok in H as ([st1 ev] & H & _). unfold renounceOwnership in H.
    apply bind_Ok in H as (? & H%onlyOwner_splitter_Ok & _). done.
Qed.

Lemma splitter_rejects_outsiders_witness :
  msg_sender (mkEnv SplitterScenario.alice 1030) ≠ owner SplitterScenario.deployed ∧
  is_ok (call SplitterScenario.splitter SplitterScenario.deployed SplitterScenario.funded
              (mkEnv SplitterScenario.alice 1030)
              (DistributePayout SplitterScenario.alice 1 100 SplitterScenario.usdc))
    = false.
Proof.
  split; [vm_compute; discriminate|].
  apply splitter_rejects_outsiders; vm_compute; discriminate.
Defined.

(** *** Recorded earnings *)

Lemma getReferralData_earnings st u a w st' :
  add_totalEarnings st u a = Ok st' →
  getReferralData st' w =
    if decide (w = u)
    then mkReferralData (directReferrer (getReferralData st u))
                        (indirectReferrers (getReferralData st u))
                        (isActive (getReferralData st u))
                        (totalEarnings (getReferralData st u) + a)
                        (directEarnings (getReferralData st u))
                        (indirectEarnings (getReferralData st u))
    else getReferralData st w.
Proof.
  unfold add_totalEarnings. intros H.
  apply bind_Ok in H as (t & [-> _]%checked_add_Ok & H). injection H as <-.
  apply getReferralData_insert.
Qed.

(** X27: in a reachable state a settlement adds the task completer's share
    to the completer's recorded total earnings and changes nobody else's
    referral record. *)
Theorem reachable_settlement_credits_completer
    self st tok env c tid r token st' tok' :
  reachable self st →
  distributePayout self st tok env c tid r token = Ok (st', tok') →
  ∃ d, _calculateDistribution r = Ok d ∧
    totalEarnings (getReferralData st' c)
      = totalEarnings (getReferralData st c) + taskCompleterReward d ∧
    ∀ u, u ≠ c → getReferralData st' u = getReferralData st u.
Proof.
  intros Hreach H.
  destruct (reachable_no_referrals self st Hreach c) as (_ & Hdir & Hind).
  unfold distributePayout in H.
  apply bind_Ok in H as (? & _ & H). apply bind_Ok in H as (? & _ & H).
  apply bind_Ok in H as (? & _ & H). apply bind_Ok in H as (? & _ & H).
  apply bind_Ok in H as (d & Hd & H).
  apply bind_Ok in H as ([st1 tok1] & Hc & H).
  apply bind_Ok in H as ([st2 tok2] & Hdirect & H).
  apply bind_Ok in H as ([st3 tok3] & Hindirect & H).
  apply bind_Ok in H as (tok4 & _ & H).
  apply bind_Ok in H as (ra & _ & H).
  injection H as <- <-. exists d. split; [done|].
  assert (∀ u, getReferralData st1 u =
               if decide (u = c)
               then mkReferralData (directReferrer (getReferralData st c))
                      (indirectReferrers (getReferralData st c))
                      (isActive (getReferralData st c))
                      (totalEarnings (getReferralData st c) + taskCompleterReward d)
                      (directEarnings (getReferralData st c))
                      (indirectEarnings (getReferralData st c))
               else getReferralData st u) as H1.
  { destruct (bool_decide (0 < taskCompleterReward d)) eqn:Hpos.
    - apply bind_Ok in Hc as (t & _ & Hc).
      apply bind_Ok in Hc as (s1 & Hs & Hc). injection Hc as <- <-.
      intros u. by apply getReferralData_earnings.
    - injection Hc as <- <-. apply bool_decide_eq_false in Hpos.
      assert (taskCompleterReward d = 0) as -> by lia.
      intros u. destruct (decide (u = c)) as [->|]; [|done].
      rewrite N.add_0_r. by destruct (getReferralData st c). }
  assert (st2 = st1) as ->.
  { rewrite H1, decide_True in Hdirect by done. simpl in Hdirect.
    rewrite Hdir in Hdirect.
    rewrite (bool_decide_eq_false_2 (0 ≠ 0)) in Hdirect by (intros Hn; by apply Hn).
    simpl in Hdirect. by injection Hdirect as <- <-. }
  assert (st3 = st1) as ->.
  { rewrite H1, decide_True in Hindirect by done. simpl in Hindirect.
    rewrite Hind in Hindirect. simpl in Hindirect.
    destruct (bool_decide (0 < indirectReferrerReward d)); by injection Hindirect as <- <-. }
  change (getReferralData (emit (emit st1 ?e1) ?e2)) with (getReferralData st1).
  split.
  - rewrite H1, decide_True by done. done.
  - intros u Hu. rewrite H1. by rewrite decide_False.
Qed.

Lemma reachable_settlement_credits_completer_witness :
  reachable SplitterScenario.splitter SplitterScenario.deployed ∧
  SplitterScenario.settle_alice = Ok SplitterScenario.settled ∧
  totalEarnings (getReferralData SplitterScenario.settled.1 SplitterScenario.alice) = 60.
Proof.
  assert (SplitterScenario.settle_alice
          = Ok (SplitterScenario.settled.1, SplitterScenario.settled.2)) as H
    by (vm_compute; reflexivity).
  split; [exact scenario_deployed_reachable|]. split; [vm_compute; reflexivity|].
  destruct (reachable_settlement_credits_completer _ _ _ _ _ _ _ _ _ _
              scenario_deployed_reachable H) as (d & Hd & Hearn & _).
  rewrite Hearn. vm_compute in Hd. injection Hd as <-. reflexivity.
Defined.

End PayoutSplitterMore.

(** ** The verifier gateway *)

Module VerifierGatewayMore.
Import VerifierGateway VerifierGatewayFacts VerifierGatewayAdmin.

Lemma onlyOwner_gateway_Ok st env u :
  onlyOwner st env = Ok u ↔ owner st = msg_sender env.
Proof. unfold onlyOwner. destruct u. case_bool_decide; split; done. Qed.

Lemma VerificationType_of_to_N t :
  VerificationType_of_N (VerificationType_to_N t) = Some t.
Proof. by destruct t. Qed.

Lemma VerificationType_to_of_N i t :
  VerificationType_of_N i = Some t → VerificationType_to_N t = i.
Proof.
  unfold VerificationType_of_N. intros H. repeat case_match; simplify_eq; done.
Qed.

Lemma VerificationType_to_N_range t : VerificationType_to_N t ∈ [0; 1; 2; 3; 4].
Proof.
  destruct t; simpl; repeat (first [apply list_elem_of_here | apply list_elem_of_further]).
Qed.

Lemma oracleAddress_insert st t t' a :
  oracleAddress (with_oracleAddresses st (<[t' := a]> (oracleAddresses st))) t =
  if decide (t = t') then a else oracleAddress st t.
Proof.
  unfold oracleAddress; simpl. destruct (decide (t = t')) as [->|].
  - by rewrite lookup_insert_eq.
  - by rewrite lookup_insert_ne.
Qed.

(** *** The clearing loop of removeOracle *)

Lemma clear_oracle_spec o l : ∀ st,
  Forall (λ i, is_Some (VerificationType_of_N i)) l →
  ∃ st', clear_oracle o l st = Ok st' ∧
    verificationRequests st' = verificationRequests st ∧
    authorizedOracles st' = authorizedOracles st ∧
    oracleNonces st' = oracleNonces st ∧
    nextRequestId st' = nextRequestId st ∧
    taskRegistry st' = taskRegistry st ∧
    owner st' = owner st ∧
    events st' = events st ∧
    ∀ t, (oracleAddress st t = o → VerificationType_to_N t ∈ l →
          oracleAddress st' t = 0) ∧
         (oracleAddress st t ≠ o → oracleAddress st' t = oracleAddress st t) ∧
         (VerificationType_to_N t ∉ l → oracleAddress st' t = oracleAddress st t).
Proof.
  induction l as [|i l IH]; intros st Hl.
  - exists st. simpl. repeat split; try done. by intros _ ?%elem_of_nil.
  - apply Forall_cons in Hl as [[ti Hi] Hl]. simpl. rewrite Hi.
    pose proof (VerificationType_to_of_N _ _ Hi) as Hti.
    set (st1 := if bool_decide (oracleAddress st ti = o)
                then with_oracleAddresses st (<[ti := 0]> (oracleAddresses st))
                else st).
    destruct (IH st1 Hl) as (st' & Hrun & H1 & H2 & H3 & H4 & H5 & H6 & H7 & Hspec).
    exists st'. split; [exact Hrun|].
    assert (∀ t, oracleAddress st1 t =
                 if decide (t = ti ∧ oracleAddress st t = o) then 0
                 else oracleAddress st t) as Hst1.
    { intros t. unfold st1. case_bool_decide as Ho.
      - rewrite oracleAddress_insert. destruct (decide (t = ti)) as [->|].
        + by rewrite decide_True.
        + rewrite decide_False; [done|]. by intros [? _].
      - rewrite decide_False; [done|]. intros [-> ?]. done. }
    assert (verificationRequests st1 = verificationRequests st ∧
            authorizedOracles st1 = authorizedOracles st ∧
            oracleNonces st1 = oracleNonces st ∧
            nextRequestId st1 = nextRequestId st ∧
            taskRegistry st1 = taskRegistry st ∧
            owner st1 = owner st ∧ events st1 = events st)
      as (E1 & E2 & E3 & E4 & E5 & E6 & E7).
    { unfold st1. by case_bool_decide. }
    repeat split; try congruence.
    + intros Ho Hin. destruct (Hspec t) as (Hclear & Hkeep & Hout).
      destruct (decide (oracleAddress st1 t = o)) as [H1o|H1o].
      * destruct (decide (VerificationType_to_N t ∈ l)) as [Hl'|Hl'].
        -- by apply Hclear.
        -- rewrite Hout by done. rewrite Hst1.
           apply elem_of_cons in Hin as [Hin|Hin]; [|done].
           rewrite decide_True; [done|]. split; [|done].
           apply (inj Some). rewrite <- !VerificationType_of_to_N. congruence.
      * rewrite Hkeep by done. rewrite Hst1 in H1o |- *.
        destruct (decide _) as [|Hn]; [done|]. done.
    + intros Ho. destruct (Hspec t) as (_ & Hkeep & _).
      rewrite Hkeep; rewrite Hst1; (rewrite decide_False; [done|]); by intros [_ ?].
    + intros Hnotin. apply not_elem_of_cons in Hnotin as [Hne Hnotin].
      destruct (Hspec t) as (_ & _ & Hout). rewrite Hout by done.
      rewrite Hst1. rewrite decide_False; [done|]. intros [-> _]. congruence.
Qed.

Lemma removeOracle_inv st env o st' :
  removeOracle st env o = Ok st' →
  owner st = msg_sender env ∧
  isAuthorizedOracle st o = true ∧
  nextRequestId st' = nextRequestId st ∧
  verificationRequests st' = verificationRequests st ∧
  oracleNonces st' = oracleNonces st ∧
  authorizedOracles st' = <[o := false]> (authorizedOracles st) ∧
  ∀ t, oracleAddress st' t =
       if decide (oracleAddress st t = o) then 0 else oracleAddress st t.
Proof.
  intros H. unfold removeOracle in H.
  apply bind_Ok in H as (? & Hown%onlyOwner_gateway_Ok & H).
  apply bind_Ok in H as (? & Hauth%require_Ok & H).
  apply bind_Ok in H as (st1 & Hclear & H). injection H as <-.
  destruct (clear_oracle_spec o [0; 1; 2; 3; 4]
              (with_authorizedOracles st (<[o := false]> (authorizedOracles st))))
    as (st1' & Hrun & H1 & H2 & H3 & H4 & _ & _ & _ & Hspec).
  { repeat (apply Forall_cons; split; [by eexists|]). apply Forall_nil_2. }
  rewrite Hrun in Hclear. injection Hclear as ->.
  repeat split; try done. intros t.
  change (oracleAddress (emit st1 (OracleRemoved o)) t) with (oracleAddress st1 t).
  destruct (Hspec t) as (Hc & Hk & _).
  change (oracleAddress (with_authorizedOracles st ?m) t) with (oracleAddress st t) in *.
  destruct (decide (oracleAddress st t = o)) as [Ho|Ho].
  - apply Hc; [done|]. apply VerificationType_to_N_range.
  - by apply Hk.
Qed.

(** What each successful transaction does to the tables of the gateway. *)
Lemma step_inv st env tx st' :
  step st env tx = Ok st' →
  match tx with
  | Gateway (RequestVerification i u t p) =>
      msg_sender env = taskRegistry st ∧ oracleAddress st t ≠ 0 ∧
      nextRequestId st' = nextRequestId st + 1 ∧
      verificationRequests st' =
        <[nextRequestId st := mkVerificationRequest i u t p false zeroResult]>
          (verificationRequests st) ∧
      authorizedOracles st' = authorizedOracles st ∧
      (∀ t, oracleAddress st' t = oracleAddress st t) ∧
      oracleNonces st' = oracleNonces st
  | Gateway (CompleteVerification r v s h) =>
      isAuthorizedOracle st (msg_sender env) = true ∧
      r < nextRequestId st ∧
      processed (getVerificationRequest st r) = false ∧
      s <= 100 ∧
      nextRequestId st' = nextRequestId st ∧
      verificationRequests st' =
        <[r := mkVerificationRequest
                 (taskId (getVerificationRequest st r))
                 (user (getVerificationRequest st r))
                 (verificationType (getVerificationRequest st r))
                 (proofData (getVerificationRequest st r)) true
                 (mkVerificationResult v s h (block_timestamp env) (msg_sender env))]>
          (verificationRequests st) ∧
      authorizedOracles st' = authorizedOracles st ∧
      (∀ t, oracleAddress st' t = oracleAddress st t) ∧
      oracleNonces st' =
        <[msg_sender env := getOracleNonce st (msg_sender env) + 1]> (oracleNonces st)
  | Gateway (RegisterOracle o t0) =>
      owner st = msg_sender env ∧ o ≠ 0 ∧
      nextRequestId st' = nextRequestId st ∧
      verificationRequests st' = verificationRequests st ∧
      authorizedOracles st' = <[o := true]> (authorizedOracles st) ∧
      (∀ t, oracleAddress st' t = if decide (t = t0) then o else oracleAddress st t) ∧
      oracleNonces st' = oracleNonces st
  | Gateway (RemoveOracle o) =>
      owner st = msg_sender env ∧ isAuthorizedOracle st o = true ∧
      nextRequestId st' = nextRequestId st ∧
      verificationRequests st' = verificationRequests st ∧
      authorizedOracles st' = <[o := false]> (authorizedOracles st) ∧
      (∀ t, oracleAddress st' t =
            if decide (oracleAddress st t = o) then 0 else oracleAddress st t) ∧
      oracleNonces st' = oracleNonces st
  | _ =>
      owner st = msg_sender env ∧
      nextRequestId st' = nextRequestId st ∧
      verificationRequests st' = verificationRequests st ∧
      authorizedOracles st' = authorizedOracles st ∧
      (∀ t, oracleAddress st' t = oracleAddress st t) ∧
      oracleNonces st' = oracleNonces st
  end.
Proof.
  intros H. destruct tx as [[i u t p|r v s h|o t0|o|a]|a|]; simpl in H.
  - apply bind_Ok in H as ([st1 rid] & H & [= <-]).
    unfold requestVerification in H. inv_Ok H. injection H as <- <-. simpl.
    repeat match goal with
           | H : bool_decide _ = true |- _ => apply bool_decide_eq_true in H
           | H : _ ∧ _ |- _ => destruct H as [-> ?]
           end.
    done.
  - unfold completeVerification in H. inv_Ok H. injection H as <-. simpl.
    repeat match goal with
           | H : bool_decide _ = true |- _ => apply bool_decide_eq_true in H
           | H : _ && _ = true |- _ => apply andb_true_iff in H as [? ?]
           | H : negb _ = true |- _ => apply negb_true_iff in H
           | H : _ ∧ _ |- _ => destruct H as [-> ?]
           end.
    done.
  - unfold registerOracle in H. inv_Ok H. injection H as <-. simpl.
    repeat match goal with
           | H : bool_decide _ = true |- _ => apply bool_decide_eq_true in H
           | H : onlyOwner _ _ = Ok _ |- _ => apply onlyOwner_gateway_Ok in H
           end.
    repeat split; try done. intros t.
    apply (oracleAddress_insert
             (with_authorizedOracles st (<[o := true]> (authorizedOracles st)))).
  - apply removeOracle_inv in H as (? & ? & ? & ? & ? & ? & ?). done.
  - unfold setTaskRegistry in H. inv_Ok H. injection H as <-.
    match goal with H : onlyOwner _ _ = Ok _ |- _ => apply onlyOwner_gateway_Ok in H end.
    done.
  - unfold transferOwnership in H. inv_Ok H.
    match goal with H : onlyOwner _ _ = Ok _ |- _ => apply onlyOwner_gateway_Ok in H end.
    case_bool_decide; [done|]. by injection H as <-.
  - unfold renounceOwnership in H. inv_Ok H. injection H as <-.
    match goal with H : onlyOwner _ _ = Ok _ |- _ => apply onlyOwner_gateway_Ok in H end.
    done.
Qed.

Lemma getVerificationRequest_step st st' rid k r :
  verificationRequests st' = <[k := r]> (verificationRequests st) →
  getVerificationRequest st' rid =
    if decide (rid = k) then r else getVerificationRequest st rid.
Proof.
  intros H. unfold getVerificationRequest. rewrite H.
  destruct (decide (rid = k)) as [->|].
  - by rewrite lookup_insert_eq.
  - by rewrite lookup_insert_ne.
Qed.

Lemma getVerificationRequest_eq st st' rid :
  verificationRequests st' = verificationRequests st →
  getVerificationRequest st' rid = getVerificationRequest st rid.
Proof. unfold getVerificationRequest. by intros ->. Qed.

Lemma isAuthorizedOracle_step st st' a o b :
  authorizedOracles st' = <[o := b]> (authorizedOracles st) →
  isAuthorizedOracle st' a = if decide (a = o) then b else isAuthorizedOracle st a.
Proof.
  intros H. unfold isAuthorizedOracle. rewrite H.
  destruct (decide (a = o)) as [->|].
  - by rewrite lookup_insert_eq.
  - by rewrite lookup_insert_ne.
Qed.

Lemma isAuthorizedOracle_eq st st' a :
  authorizedOracles st' = authorizedOracles st →
  isAuthorizedOracle st' a = isAuthorizedOracle st a.
Proof. unfold isAuthorizedOracle. by intros ->. Qed.

Lemma bind_Ok_l {A B} (a : A) (f : A → result B) : Ok a ≫= f = f a.
Proof. done. Qed.

Lemma removeOracle_succeeds st env o :
  owner st = msg_sender env →
  isAuthorizedOracle st o = true →
  ∃ st', removeOracle st env o = Ok st'.
Proof.
  intros Hown Hauth. unfold removeOracle.
  rewrite (proj2 (onlyOwner_gateway_Ok st env tt) Hown), bind_Ok_l.
  rewrite Hauth, require_true, bind_Ok_l. cbv zeta.
  destruct (clear_oracle_spec o [0; 1; 2; 3; 4]
              (with_authorizedOracles st (<[o := false]> (authorizedOracles st))))
    as (st1 & -> & _).
  { repeat (apply Forall_cons; split; [by eexists|]). apply Forall_nil_2. }
  rewrite bind_Ok_l. eauto.
Qed.

Lemma gateway_reachable_exec st tx : reachable st → reachable (exec st tx).
Proof.
  intros H. unfold exec. destruct (call st tx.1 tx.2) eqn:E; [|done].
  by apply (reachable_step st tx.1 (Gateway tx.2)).
Qed.

Lemma gateway_reachable_run txs : ∀ st, reachable st → reachable (run st txs).
Proof.
  induction txs as [|tx txs IH]; intros st H; [done|].
  simpl. apply IH. by apply gateway_reachable_exec.
Qed.

Lemma scenario_registered_reachable : reachable GatewayScenario.registered.
Proof.
  apply gateway_reachable_run.
  by apply (reachable_init (mkEnv GatewayScenario.admin 1000) GatewayScenario.registry).
Qed.

Lemma scenario_answered_reachable : reachable GatewayScenario.answered.
Proof.
  apply gateway_reachable_exec, gateway_reachable_exec, scenario_registered_reachable.
Qed.

(** *** Removing a verifier *)

(** X16: [removeOracle], called by the owner for an authorized verifier,
    withdraws the authorization and resets to the zero address every
    category the verifier was registered for, so that it is registered for
    none; the other categories and the other verifiers are untouched. *)
Theorem removeOracle_clears_every_category st env o :
  owner st = msg_sender env →
  isAuthorizedOracle st o = true →
  o ≠ 0 →
  ∃ st', removeOracle st env o = Ok st' ∧
    isAuthorizedOracle st' o = false ∧
    (∀ t, oracleAddress st t = o → oracleAddress st' t = 0) ∧
    (∀ t, oracleAddress st' t ≠ o) ∧
    (∀ t, oracleAddress st t ≠ o → oracleAddress st' t = oracleAddress st t) ∧
    (∀ a, a ≠ o → isAuthorizedOracle st' a = isAuthorizedOracle st a).
Proof.
  intros Hown Hauth Ho.
  destruct (removeOracle_succeeds st env o Hown Hauth) as [st' H].
  exists st'. split; [done|].
  apply removeOracle_inv in H as (_ & _ & _ & _ & _ & Ha & Ht).
  repeat split.
  - rewrite (isAuthorizedOracle_step _ _ _ _ _ Ha). by rewrite decide_True.
  - intros t Hserved. rewrite Ht. by rewrite decide_True.
  - intros t. rewrite Ht. destruct (decide _); congruence.
  - intros t Hne. rewrite Ht. by rewrite decide_False.
  - intros a Hne. rewrite (isAuthorizedOracle_step _ _ _ _ _ Ha). by rewrite decide_False.
Qed.

Lemma removeOracle_clears_every_category_witness :
  isAuthorizedOracle GatewayScenario.registered GatewayScenario.chainOracle = true ∧
  oracleAddress GatewayScenario.registered ONCHAIN_TRANSACTION
    = GatewayScenario.chainOracle ∧
  ∃ st', removeOracle GatewayScenario.registered (mkEnv GatewayScenario.admin 1100)
                      GatewayScenario.chainOracle = Ok st' ∧
         oracleAddress st' ONCHAIN_TRANSACTION = 0.
Proof.
  split; [reflexivity|]. split; [reflexivity|].
  destruct (removeOracle_clears_every_category GatewayScenario.registered
              (mkEnv GatewayScenario.admin 1100) GatewayScenario.chainOracle)
    as (st' & H & _ & Hzero & _).
  - reflexivity.
  - reflexivity.
  - vm_compute; discriminate.
  - exists st'. split; [exact H|]. apply Hzero. reflexivity.
Defined.

(** X17: a removed verifier is locked out: after [removeOracle] its
    verdicts are rejected with the authorization error, and a request for
    a category it served is refused with "No oracle for verification
    type" until another verifier is registered for it. *)
Theorem removed_oracle_is_locked_out st env o st' :
  removeOracle st env o = Ok st' →
  o ≠ 0 →
  (∀ env' rid v s h, msg_sender env' = o →
     completeVerification st' env' rid v s h =
       Revert (Error "Only authorized oracles can complete verification")) ∧
  (∀ env' i u t p, msg_sender env' = taskRegistry st' → oracleAddress st t = o →
     requestVerification st' env' i u t p =
       Revert (Error "No oracle for verification type")).
Proof.
  intros H Ho. apply removeOracle_inv in H as (_ & _ & _ & _ & _ & Ha & Ht).
  split.
  - intros env' rid v s h Hs. apply completeVerification_unauthorized.
    rewrite Hs, (isAuthorizedOracle_step _ _ _ _ _ Ha). by rewrite decide_True.
  - intros env' i u t p Hs Hserved. unfold requestVerification.
    rewrite Ht, decide_True by done.
    repeat case_bool_decide; simpl; done.
Qed.

Lemma removed_oracle_is_locked_out_witness :
  is_ok (removeOracle GatewayScenario.registered (mkEnv GatewayScenario.admin 1100)
                      GatewayScenario.chainOracle) = true ∧
  is_ok (completeVerification
           (exec GatewayScenario.registered
                 (mkEnv GatewayScenario.admin 1100, RemoveOracle GatewayScenario.chainOracle))
           (mkEnv GatewayScenario.chainOracle 1200) 1 true 80 "0xdigest") = false.
Proof.
  split; [reflexivity|].
  destruct (removed_oracle_is_locked_out GatewayScenario.registered
              (mkEnv GatewayScenario.admin 1100) GatewayScenario.chainOracle
              (exec GatewayScenario.registered
                 (mkEnv GatewayScenario.admin 1100,
                  RemoveOracle GatewayScenario.chainOracle)))
    as [Hlock _].
  - reflexivity.
  - vm_compute; discriminate.
  - rewrite Hlock; reflexivity.
Defined.

(** *** What a transaction can change *)

(** X18: what was asked in an allocated request (task, user, category,
    proof) never changes, and once the request is processed the whole
    record, the verdict included, is final. *)
Theorem processed_request_is_final st env tx st' rid :
  step st env tx = Ok st' →
  rid < nextRequestId st →
  asked (getVerificationRequest st' rid) = asked (getVerificationRequest st rid) ∧
  (processed (getVerificationRequest st rid) = true →
   getVerificationRequest st' rid = getVerificationRequest st rid).
Proof.
  intros H Hlt. apply step_inv in H.
  destruct tx as [[i u t p|r v s h|o t0|o|a]|a|].
  - destruct H as (_ & _ & _ & Hreq & _).
    rewrite (getVerificationRequest_step _ _ _ _ _ Hreq).
    rewrite decide_False by lia. done.
  - destruct H as (_ & _ & Hp & _ & _ & Hreq & _).
    rewrite (getVerificationRequest_step _ _ _ _ _ Hreq).
    destruct (decide (rid = r)) as [->|]; [|done].
    split; [done|]. congruence.
  - destruct H as (_ & _ & _ & Hreq & _). by rewrite (getVerificationRequest_eq _ _ _ Hreq).
  - destruct H as (_ & _ & _ & Hreq & _). by rewrite (getVerificationRequest_eq _ _ _ Hreq).
  - destruct H as (_ & _ & Hreq & _). by rewrite (getVerificationRequest_eq _ _ _ Hreq).
  - destruct H as (_ & _ & Hreq & _). by rewrite (getVerificationRequest_eq _ _ _ Hreq).
  - destruct H as (_ & _ & Hreq & _). by rewrite (getVerificationRequest_eq _ _ _ Hreq).
Qed.

Lemma processed_request_is_final_witness :
  1 < nextRequestId GatewayScenario.answered ∧
  getVerificationRequest
    (exec GatewayScenario.answered
          (mkEnv GatewayScenario.admin 1300,
           RegisterOracle GatewayScenario.socialOracle ONCHAIN_TRANSACTION)) 1
  = getVerificationRequest GatewayScenario.answered 1.
Proof.
  split; [reflexivity|].
  apply (processed_request_is_final GatewayScenario.answered
           (mkEnv GatewayScenario.admin 1300)
           (Gateway (RegisterOracle GatewayScenario.socialOracle ONCHAIN_TRANSACTION))).
  - reflexivity.
  - reflexivity.
  - reflexivity.
Defined.

(** X19: a verifier's nonce counts its accepted verdicts: a successful
    [completeVerification] raises the caller's nonce by one, and no other
    transaction changes any nonce. *)
Theorem nonce_counts_accepted_verdicts st env tx st' a :
  step st env tx = Ok st' →
  getOracleNonce st' a =
    getOracleNonce st a +
    match tx with
    | Gateway (CompleteVerification _ _ _ _) =>
        if decide (a = msg_sender env) then 1 else 0
    | _ => 0
    end.
Proof.
  intros H. apply step_inv in H.
  destruct tx as [[i u t p|r v s h|o t0|o|a0]|a0|].
  2: { destruct H as (_ & _ & _ & _ & _ & _ & _ & _ & Hn).
       unfold getOracleNonce at 1. rewrite Hn.
       destruct (decide (a = msg_sender env)) as [->|].
       - by rewrite lookup_insert_eq.
       - rewrite lookup_insert_ne by done. unfold getOracleNonce. lia. }
  all: unfold getOracleNonce;
       repeat match goal with H : _ ∧ _ |- _ => destruct H as [_ H] end;
       rewrite H; lia.
Qed.

Lemma nonce_counts_accepted_verdicts_witness :
  step GatewayScenario.requested (mkEnv GatewayScenario.chainOracle 1020)
       (Gateway (CompleteVerification 1 true 80 "0xdigest"))
    = Ok GatewayScenario.answered ∧
  getOracleNonce GatewayScenario.answered GatewayScenario.chainOracle = 1.
Proof.
  split; [reflexivity|].
  rewrite (nonce_counts_accepted_verdicts GatewayScenario.requested
             (mkEnv GatewayScenario.chainOracle 1020)
             (Gateway (CompleteVerification 1 true 80 "0xdigest"))
             GatewayScenario.answered GatewayScenario.chainOracle eq_refl).
  reflexivity.
Defined.

(** X20: authorizations are granted by [registerOracle] and withdrawn by
    [removeOracle] alone; in particular registering a new verifier for a
    category leaves the one it replaces authorized. *)
Theorem authorization_changes_only_by_register_and_remove st env tx st' a :
  step st env tx = Ok st' →
  isAuthorizedOracle st' a =
    match tx with
    | Gateway (RegisterOracle o _) => if decide (a = o) then true else isAuthorizedOracle st a
    | Gateway (RemoveOracle o) => if decide (a = o) then false else isAuthorizedOracle st a
    | _ => isAuthorizedOracle st a
    end.
Proof.
  intros H. apply step_inv in H.
  destruct tx as [[i u t p|r v s h|o t0|o|a0]|a0|].
  - destruct H as (_ & _ & _ & _ & Ha & _). by apply isAuthorizedOracle_eq.
  - destruct H as (_ & _ & _ & _ & _ & _ & Ha & _). by apply isAuthorizedOracle_eq.
  - destruct H as (_ & _ & _ & _ & Ha & _). by apply isAuthorizedOracle_step.
  - destruct H as (_ & _ & _ & _ & Ha & _). by apply isAuthorizedOracle_step.
  - destruct H as (_ & _ & _ & Ha & _). by apply isAuthorizedOracle_eq.
  - destruct H as (_ & _ & _ & Ha & _). by apply isAuthorizedOracle_eq.
  - destruct H as (_ & _ & _ & Ha & _). by apply isAuthorizedOracle_eq.
Qed.

Lemma authorization_changes_only_by_register_and_remove_witness :
  is_ok (step GatewayScenario.registered (mkEnv GatewayScenario.admin 1300)
              (Gateway (RegisterOracle GatewayScenario.socialOracle ONCHAIN_TRANSACTION)))
    = true ∧
  isAuthorizedOracle
    (exec GatewayScenario.registered
          (mkEnv GatewayScenario.admin 1300,
           RegisterOracle GatewayScenario.socialOracle ONCHAIN_TRANSACTION))
    GatewayScenario.chainOracle = true.
Proof.
  split; [reflexivity|].
  rewrite (authorization_changes_only_by_register_and_remove GatewayScenario.registered
             (mkEnv GatewayScenario.admin 1300)
             (Gateway (RegisterOracle GatewayScenario.socialOracle ONCHAIN_TRANSACTION))
             (exec GatewayScenario.registered
                   (mkEnv GatewayScenario.admin 1300,
                    RegisterOracle GatewayScenario.socialOracle ONCHAIN_TRANSACTION))
             GatewayScenario.chainOracle eq_refl).
  reflexivity.
Defined.

(** *** Invariants of the reachable states *)

Lemma requests_wf_init env r st : constructor env r = Ok st → requests_wf st.
Proof.
  unfold constructor. case_bool_decide; [done|]. intros [= <-].
  split; simpl; [lia|]. intros rid. unfold getVerificationRequest; simpl.
  rewrite lookup_empty. simpl. unfold MAX_SYBIL_SCORE. repeat split; lia.
Qed.

Lemma requests_wf_step st env tx st' :
  requests_wf st → step st env tx = Ok st' → requests_wf st'.
Proof.
  intros [Hone Hwf] H. apply step_inv in H.
  destruct tx as [[i u t p|r v s h|o t0|o|a]|a|].
  - destruct H as (_ & _ & Hn & Hreq & _). split; [lia|]. intros rid.
    rewrite (getVerificationRequest_step _ _ _ _ _ Hreq), Hn, Hreq.
    destruct (Hwf rid) as (Hnone & Hzero & Hscore).
    destruct (decide (rid = nextRequestId st)) as [->|Hne]; simpl.
    + unfold MAX_SYBIL_SCORE. repeat split; try done; lia.
    + repeat split; try done. intros Hge.
      rewrite lookup_insert_ne by done. apply Hnone. lia.
  - destruct H as (_ & Hlt & _ & Hs & Hn & Hreq & _). split; [lia|]. intros rid.
    rewrite (getVerificationRequest_step _ _ _ _ _ Hreq), Hn, Hreq.
    destruct (Hwf rid) as (Hnone & Hzero & Hscore).
    destruct (decide (rid = r)) as [->|Hne]; simpl.
    + unfold MAX_SYBIL_SCORE. repeat split; try done; lia.
    + repeat split; try done. intros Hge.
      rewrite lookup_insert_ne by done. by apply Hnone.
  - destruct H as (_ & _ & Hn & Hreq & _). split; [lia|]. intros rid.
    rewrite (getVerificationRequest_eq _ _ _ Hreq), Hn, Hreq. apply Hwf.
  - destruct H as (_ & _ & Hn & Hreq & _). split; [lia|]. intros rid.
    rewrite (getVerificationRequest_eq _ _ _ Hreq), Hn, Hreq. apply Hwf.
  - destruct H as (_ & Hn & Hreq & _). split; [lia|]. intros rid.
    rewrite (getVerificationRequest_eq _ _ _ Hreq), Hn, Hreq. apply Hwf.
  - destruct H as (_ & Hn & Hreq & _). split; [lia|]. intros rid.
    rewrite (getVerificationRequest_eq _ _ _ Hreq), Hn, Hreq. apply Hwf.
  - destruct H as (_ & Hn & Hreq & _). split; [lia|]. intros rid.
    rewrite (getVerificationRequest_eq _ _ _ Hreq), Hn, Hreq. apply Hwf.
Qed.

Lemma reachable_requests_wf st : reachable st → requests_wf st.
Proof.
  induction 1 as [env r st Hinit | st env tx st' _ IH Hstep].
  - by eapply requests_wf_init.
  - by eapply requests_wf_step.
Qed.

(** X21: in every reachable state no request is stored from the next id
    on, a request that is not processed yet carries the empty result
    (never a partial one), and no recorded score exceeds 100. *)
Theorem request_table_is_well_formed st rid :
  reachable st →
  (nextRequestId st <= rid → getVerificationRequest st rid = zeroRequest) ∧
  (processed (getVerificationRequest st rid) = false →
   result_ (getVerificationRequest st rid) = zeroResult) ∧
  sybilScore (result_ (getVerificationRequest st rid)) <= 100.
Proof.
  intros Hreach. destruct (reachable_requests_wf st Hreach) as [_ Hwf].
  destruct (Hwf rid) as (Hnone & Hzero & Hscore). repeat split; try done.
  intros Hge. unfold getVerificationRequest. by rewrite Hnone.
Qed.

Lemma request_table_is_well_formed_witness :
  reachable GatewayScenario.answered ∧
  sybilScore (result_ (getVerificationRequest GatewayScenario.answered 1)) <= 100.
Proof.
  split; [exact scenario_answered_reachable|].
  apply (request_table_is_well_formed GatewayScenario.answered 1
           scenario_answered_reachable).
Defined.

Lemma oracles_wf_init env r st : constructor env r = Ok st → oracles_wf st.
Proof.
  unfold constructor. case_bool_decide; [done|]. intros [= <-].
  split.
  - unfold isAuthorizedOracle; simpl. by rewrite lookup_empty.
  - intros t. unfold oracleAddress; simpl. by rewrite lookup_empty.
Qed.

Lemma oracles_wf_step st env tx st' :
  oracles_wf st → step st env tx = Ok st' → oracles_wf st'.
Proof.
  intros [Hzero Hwf] H. apply step_inv in H.
  destruct tx as [[i u t p|r v s h|o t0|o|a]|a|].
  - destruct H as (_ & _ & _ & _ & Ha & Ht & _). split.
    + by rewrite (isAuthorizedOracle_eq _ _ _ Ha).
    + intros t'. rewrite Ht, (isAuthorizedOracle_eq _ _ _ Ha). apply Hwf.
  - destruct H as (_ & _ & _ & _ & _ & _ & Ha & Ht & _). split.
    + by rewrite (isAuthorizedOracle_eq _ _ _ Ha).
    + intros t'. rewrite Ht, (isAuthorizedOracle_eq _ _ _ Ha). apply Hwf.
  - destruct H as (_ & Ho & _ & _ & Ha & Ht & _). split.
    + rewrite (isAuthorizedOracle_step _ _ _ _ _ Ha). by rewrite decide_False.
    + intros t'. rewrite Ht, (isAuthorizedOracle_step _ _ _ _ _ Ha).
      destruct (decide (t' = t0)) as [->|].
      * by rewrite decide_True.
      * intros Hne. destruct (decide _); [done|]. by apply Hwf.
  - destruct H as (_ & Hauth & _ & _ & Ha & Ht & _).
    assert (o ≠ 0) as Ho by (intros ->; congruence). split.
    + rewrite (isAuthorizedOracle_step _ _ _ _ _ Ha). by rewrite decide_False.
    + intros t'. rewrite Ht, (isAuthorizedOracle_step _ _ _ _ _ Ha).
      destruct (decide (oracleAddress st t' = o)) as [|Hne]; [done|].
      intros Hnz. rewrite decide_False by done. by apply Hwf.
  - destruct H as (_ & _ & _ & Ha & Ht & _). split.
    + by rewrite (isAuthorizedOracle_eq _ _ _ Ha).
    + intros t'. rewrite Ht, (isAuthorizedOracle_eq _ _ _ Ha). apply Hwf.
  - destruct H as (_ & _ & _ & Ha & Ht & _). split.
    + by rewrite (isAuthorizedOracle_eq _ _ _ Ha).
    + intros t'. rewrite Ht, (isAuthorizedOracle_eq _ _ _ Ha). apply Hwf.
  - destruct H as (_ & _ & _ & Ha & Ht & _). split.
    + by rewrite (isAuthorizedOracle_eq _ _ _ Ha).
    + intros t'. rewrite Ht, (isAuthorizedOracle_eq _ _ _ Ha). apply Hwf.
Qed.

Lemma reachable_oracles_wf st : reachable st → oracles_wf st.
Proof.
  induction 1 as [env r st Hinit | st env tx st' _ IH Hstep].
  - by eapply oracles_wf_init.
  - by eapply oracles_wf_step.
Qed.

(** X22: in every reachable state the zero address is not authorized, and
    the verifier registered for a category, if there is one, is
    authorized. *)
Theorem registered_verifier_is_authorized st t :
  reachable st →
  isAuthorizedOracle st 0 = false ∧
  (oracleAddress st t ≠ 0 → isAuthorizedOracle st (oracleAddress st t) = true).
Proof.
  intros Hreach. destruct (reachable_oracles_wf st Hreach) as [Hzero Hwf].
  split; [done|apply Hwf].
Qed.

Lemma registered_verifier_is_authorized_witness :
  reachable GatewayScenario.registered ∧
  isAuthorizedOracle GatewayScenario.registered
    (oracleAddress GatewayScenario.registered OFFCHAIN_SOCIAL) = true.
Proof.
  split; [exact scenario_registered_reachable|].
  apply (registered_verifier_is_authorized GatewayScenario.registered OFFCHAIN_SOCIAL
           scenario_registered_reachable).
  vm_compute; discriminate.
Defined.

(** *** Allocating a request *)

(** X23: [requestVerification], called by the task registry for a
    category that has a verifier, returns the next id, stores under it the
    request as asked, unprocessed and with the empty result, advances the
    counter by one and leaves every other request as it was. *)
Theorem requestVerification_allocates_next_id st env i u t p :
  msg_sender env = taskRegistry st →
  oracleAddress st t ≠ 0 →
  nextRequestId st < uint256_max →
  ∃ st', requestVerification st env i u t p = Ok (st', nextRequestId st) ∧
    nextRequestId st' = nextRequestId st + 1 ∧
    getVerificationRequest st' (nextRequestId st) =
      mkVerificationRequest i u t p false zeroResult ∧
    ∀ rid, rid ≠ nextRequestId st →
      getVerificationRequest st' rid = getVerificationRequest st rid.
Proof.
  intros Hreg Horacle Hroom. unfold requestVerification, checked_add.
  repeat case_bool_decide; simpl; try done; try lia.
  eexists. split; [done|]. unfold getVerificationRequest; simpl.
  split; [done|]. split.
  - by rewrite lookup_insert_eq.
  - intros rid Hne. by rewrite lookup_insert_ne.
Qed.

Lemma requestVerification_allocates_next_id_witness :
  msg_sender (mkEnv GatewayScenario.registry 1010)
    = taskRegistry GatewayScenario.registered ∧
  ∃ st', requestVerification GatewayScenario.registered
           (mkEnv GatewayScenario.registry 1010) 1 GatewayScenario.alice
           ONCHAIN_TRANSACTION "0xproof" = Ok (st', 1).
Proof.
  split; [reflexivity|].
  destruct (requestVerification_allocates_next_id GatewayScenario.registered
              (mkEnv GatewayScenario.registry 1010) 1 GatewayScenario.alice
              ONCHAIN_TRANSACTION "0xproof") as (st' & H & _).
  - reflexivity.
  - vm_compute; discriminate.
  - vm_compute; reflexivity.
  - exists st'. exact H.
Defined.

End VerifierGatewayMore.

(** ** The local risk score *)

Module SybilDetectionMore.
Import SybilDetection.

(** X24: the local score of every fingerprint lies between 5 and 100 (the
    six deductions add up to 95, so the lower clamp at 0 never applies),
    and the risk level is read off it: LOW from 80, MEDIUM from 60, HIGH
    below. *)
Theorem calculateSybilScore_range fingerprint :
  (5 <= score (calculateSybilScore fingerprint) <= 100)%Z ∧
  riskLevel (calculateSybilScore fingerprint) =
    (if bool_decide (80 <= score (calculateSybilScore fingerprint))%Z then LOW
     else if bool_decide (60 <= score (calculateSybilScore fingerprint))%Z then MEDIUM
     else HIGH).
Proof.
  split; [|reflexivity].
  unfold calculateSybilScore.
  generalize (includes (userAgent fingerprint) "HeadlessChrome"
              || includes (userAgent fingerprint) "PhantomJS"),
    (String.eqb (screenResolution fingerprint) "1920x1080"
     && String.eqb (timezone fingerprint) "UTC"),
    (bool_decide (hardwareConcurrency fingerprint < 2)%Z),
    (bool_decide (maxTouchPoints fingerprint = 0)%Z
     && includes (platform fingerprint) "Mobile"),
    (negb (cookieEnabled fingerprint)),
    (String.eqb (doNotTrack fingerprint) "1"),
    (negb (String.eqb (language fingerprint) "en-US")
     && negb (String.eqb (language fingerprint) "en")),
    (negb (String.eqb (timezone fingerprint) "UTC")
     && negb (String.eqb (timezone fingerprint) "America/New_York")).
  clear fingerprint. intros c1 c2 c3 c4 c5 c6 c7 c8.
  destruct c1, c2, c3, c4, c5, c6, c7, c8;
    vm_compute; split; discriminate.
Qed.

(** X25: every deduction is explained: a result that lists no factor has
    the full score of 100, and there are never more recommendations than
    factors. *)
Theorem calculateSybilScore_explains_deductions fingerprint :
  (factors (calculateSybilScore fingerprint) = [] →
   score (calculateSybilScore fingerprint) = 100%Z) ∧
  (length (recommendations (calculateSybilScore fingerprint))
   ≤ length (factors (calculateSybilScore fingerprint)))%nat.
Proof.
  unfold calculateSybilScore.
  generalize (includes (userAgent fingerprint) "HeadlessChrome"
              || includes (userAgent fingerprint) "PhantomJS"),
    (String.eqb (screenResolution fingerprint) "1920x1080"
     && String.eqb (timezone fingerprint) "UTC"),
    (bool_decide (hardwareConcurrency fingerprint < 2)%Z),
    (bool_decide (maxTouchPoints fingerprint = 0)%Z
     && includes (platform fingerprint) "Mobile"),
    (negb (cookieEnabled fingerprint)),
    (String.eqb (doNotTrack fingerprint) "1"),
    (negb (String.eqb (language fingerprint) "en-US")
     && negb (String.eqb (language fingerprint) "en")),
    (negb (String.eqb (timezone fingerprint) "UTC")
     && negb (String.eqb (timezone fingerprint) "America/New_York")).
  clear fingerprint. intros c1 c2 c3 c4 c5 c6 c7 c8.
  destruct c1, c2, c3, c4, c5, c6, c7, c8;
    vm_compute; (split; [try done|lia]).
Qed.

Lemma calculateSybilScore_explains_deductions_witness :
  factors (calculateSybilScore
             (mkDeviceFingerprint "Mozilla/5.0" "1440x900" "America/New_York" "en"
                                  "MacIntel" true "" 8 0 24 2%Qc)) = [] ∧
  score (calculateSybilScore
           (mkDeviceFingerprint "Mozilla/5.0" "1440x900" "America/New_York" "en"
                                "MacIntel" true "" 8 0 24 2%Qc)) = 100%Z.
Proof.
  split; [reflexivity|].
  apply (calculateSybilScore_explains_deductions
           (mkDeviceFingerprint "Mozilla/5.0" "1440x900" "America/New_York" "en"
                                "MacIntel" true "" 8 0 24 2%Qc)).
  reflexivity.
Defined.

Example calculateSybilScore_server :
  score (calculateSybilScore serverFingerprint) = 85%Z ∧
  riskLevel (calculateSybilScore serverFingerprint) = LOW.
Proof. split; reflexivity. Qed.

End SybilDetectionMore.
